(** * diskcache recipes: a shallow embedding of [diskcache/recipes.py]

    The recipes (Averager, Lock, RLock, BoundedSemaphore, throttle, barrier)
    are small Python programs over a shared key-value cache.  They are
    embedded here as computations of a state-and-exception monad over a
    machine that holds the cache contents, the wall clock, the identity of
    the running thread and the trace of the calls made so far.

    Python values are dynamically typed, so the embedding has one type of
    values; Python floats are IEEE binary64 numbers and are modelled by the
    primitive floats of the kernel, Python integers by [Z]. *)

From Stdlib Require Import ZArith List Floats Lia.
From stdpp Require Import gmap strings pretty.

Set Warnings "-inexact-float".

Local Open Scope Z_scope.

(** ** Python values and exceptions *)

Inductive pyval : Type :=
| VNone
| VInt (z : Z)
| VFloat (f : float)
| VStr (s : string)
| VPair (a b : pyval).

Inductive exn : Type :=
| AssertionError (msg : string)
| TypeError
| ValueError
| ZeroDivisionError
| OverflowError.

(** The outcome of running a piece of Python: a value, a raised exception,
    or [Spin] when a [while True] loop used up the iterations it was given. *)
Inductive result (A : Type) : Type :=
| Ok (a : A)
| Raise (e : exn)
| Spin.
Arguments Ok {A} a.
Arguments Raise {A} e.
Arguments Spin {A}.

#[global] Instance result_ret : MRet result := fun _ a => Ok a.
#[global] Instance result_bind : MBind result := fun _ _ f r =>
  match r with
  | Ok a => f a
  | Raise e => Raise e
  | Spin => Spin
  end.

(** ** Python numbers *)

(** [float(z)] for an integer: the nearest binary64 number, ties to even. *)
Definition Z2F (z : Z) : float := SF2Prim (binary_normalize prec emax z 0 false).

(** Integers at or beyond this bound round to infinity; CPython raises
    OverflowError for them instead. *)
Definition float_overflow_bound : Z := 2 ^ 1024 - 2 ^ 970.

Definition int_to_float (z : Z) : result float :=
  if float_overflow_bound <=? Z.abs z then Raise OverflowError else Ok (Z2F z).

Arguments Z2F : simpl never.
Arguments float_overflow_bound : simpl never.
Arguments int_to_float : simpl never.

Definition as_float (v : pyval) : result float :=
  match v with
  | VInt z => int_to_float z
  | VFloat f => Ok f
  | _ => Raise TypeError
  end.

Definition is_number (v : pyval) : bool :=
  match v with
  | VInt _ | VFloat _ => true
  | _ => false
  end.

(** Binary arithmetic: integer with integer stays exact, anything with a
    float is computed in binary64 after converting the integer operand.
    Operands that are not numbers raise TypeError (the recipes never
    concatenate strings or tuples). *)
Definition py_arith (fz : Z -> Z -> Z) (ff : float -> float -> float)
    (a b : pyval) : result pyval :=
  match a, b with
  | VInt x, VInt y => Ok (VInt (fz x y))
  | _, _ =>
      if is_number a && is_number b
      then x ← as_float a; y ← as_float b; Ok (VFloat (ff x y))
      else Raise TypeError
  end.

Definition py_add : pyval -> pyval -> result pyval := py_arith Z.add PrimFloat.add.
Definition py_sub : pyval -> pyval -> result pyval := py_arith Z.sub PrimFloat.sub.
Definition py_mul : pyval -> pyval -> result pyval := py_arith Z.mul PrimFloat.mul.

(** [a / b] on integers: the quotient correctly rounded to binary64.  The
    quotient is computed with more than 64 significant bits and a sticky
    bit, then rounded once. *)
Definition int_truediv (a b : Z) : result float :=
  if b =? 0 then Raise ZeroDivisionError
  else
    let neg := xorb (a <? 0) (b <? 0) in
    let n := Z.abs a in
    let d := Z.abs b in
    if n =? 0 then Ok (if neg then (-0)%float else 0%float)
    else
      let k := Z.max 0 (Z.log2 d - Z.log2 n + 64) in
      let q := (n * 2 ^ k) / d in
      let r := (n * 2 ^ k) mod d in
      let m := 2 * q + (if r =? 0 then 0 else 1) in
      let s := binary_normalize prec emax (if neg then - m else m) (- (k + 1)) neg in
      match s with
      | S754_infinity _ => Raise OverflowError
      | _ => Ok (SF2Prim s)
      end.

(** A nonzero integer never converts to a zero float, so the test for a
    zero divisor can be made on the operand as given. *)
Definition is_zero (v : pyval) : bool :=
  match v with
  | VInt z => z =? 0
  | VFloat f => PrimFloat.eqb f 0
  | _ => false
  end.

Definition py_truediv (a b : pyval) : result pyval :=
  match a, b with
  | VInt x, VInt y => f ← int_truediv x y; Ok (VFloat f)
  | _, _ =>
      if is_number a && is_number b
      then
        x ← as_float a; y ← as_float b;
        if is_zero b then Raise ZeroDivisionError else Ok (VFloat (x / y)%float)
      else Raise TypeError
  end.

(** Comparing a float with an integer is exact in Python: the integer is
    not rounded first. [None] stands for "unordered" (a NaN operand). *)
Definition float_Z_compare (f : float) (z : Z) : option comparison :=
  match Prim2SF f with
  | S754_nan => None
  | S754_infinity s => Some (if s then Lt else Gt)
  | S754_zero _ => Some (0 ?= z)
  | S754_finite s m e =>
      let v := if s then Z.neg m else Z.pos m in
      Some (if 0 <=? e then (v * 2 ^ e ?= z) else (v ?= z * 2 ^ (- e)))
  end.

Definition float_compare (x y : float) : option comparison :=
  match PrimFloat.compare x y with
  | FEq => Some Eq
  | FLt => Some Lt
  | FGt => Some Gt
  | FNotComparable => None
  end.

Definition num_compare (a b : pyval) : result (option comparison) :=
  match a, b with
  | VInt x, VInt y => Ok (Some (x ?= y))
  | VFloat x, VFloat y => Ok (float_compare x y)
  | VFloat x, VInt y => Ok (float_Z_compare x y)
  | VInt x, VFloat y => Ok (CompOpp <$> float_Z_compare y x)
  | _, _ => Raise TypeError
  end.

Definition py_gt (a b : pyval) : result bool :=
  c ← num_compare a b; Ok (match c with Some Gt => true | _ => false end).

Definition py_ge (a b : pyval) : result bool :=
  c ← num_compare a b; Ok (match c with Some Gt | Some Eq => true | _ => false end).

Arguments py_add : simpl never.
Arguments py_sub : simpl never.
Arguments py_mul : simpl never.
Arguments py_truediv : simpl never.
Arguments py_gt : simpl never.
Arguments py_ge : simpl never.

(** [a == b] never raises. *)
Fixpoint py_eq (a b : pyval) : bool :=
  match a, b with
  | VNone, VNone => true
  | VStr s, VStr t => bool_decide (s = t)
  | VPair a1 a2, VPair b1 b2 => py_eq a1 b1 && py_eq a2 b2
  | VPair _ _, _ | _, VPair _ _ => false
  | VNone, _ | _, VNone | VStr _, _ | _, VStr _ => false
  | _, _ =>
      match num_compare a b with
      | Ok (Some Eq) => true
      | _ => false
      end
  end.

Arguments py_eq : simpl never.

(** Truth value of an object, as tested by [if delay:]. *)
Definition py_truthy (v : pyval) : bool :=
  match v with
  | VNone => false
  | VInt z => negb (z =? 0)
  | VFloat f => negb (PrimFloat.eqb f 0)
  | VStr s => negb (bool_decide (s = ""))
  | VPair _ _ => true
  end.

(** [x, y = v]: only a two-element sequence unpacks into two names. *)
Definition unpack2 (v : pyval) : result (pyval * pyval) :=
  match v with
  | VPair a b => Ok (a, b)
  | VStr (String c1 (String c2 EmptyString)) =>
      Ok (VStr (String c1 EmptyString), VStr (String c2 EmptyString))
  | VStr _ => Raise ValueError
  | _ => Raise TypeError
  end.

(** ** The machine: cache contents, clock, thread identity, call trace *)

(** A row of the cache: the value, the time at which it expires (none when
    it was written without [expire], which is a number of seconds) and its
    tag. *)
Record entry : Type := {
  e_value : pyval;
  e_expire_time : option float;
  e_tag : option string
}.

(** What user code can see and change: the cache rows, the wall clock, and
    the identity of the thread that is running ([os.getpid()],
    [threading.get_ident()]). *)
Record world : Type := {
  w_store : gmap string entry;
  w_now : float;
  w_pid : Z;
  w_tid : Z
}.

(** The calls the recipes make, in the order they make them. *)
Inductive event : Type :=
| EGet (key : string) (default : pyval) (retry : bool)
| ESet (key : string) (value : pyval) (expire : option float) (tag : option string) (retry : bool)
| EAdd (key : string) (value : pyval) (expire : option float) (tag : option string) (retry : bool)
| EDelete (key : string) (retry : bool)
| EPop (key : string) (default : pyval) (retry : bool)
| EBegin
| ECommit
| ERollback
| ESleep (delay : pyval)
| EInvoke (args : list pyval).

Record machine : Type := {
  m_world : world;
  m_trace : list event
}.

Definition M (A : Type) : Type := machine -> result A * machine.

#[global] Instance M_ret : MRet M := fun _ a m => (Ok a, m).
#[global] Instance M_bind : MBind M := fun _ _ f c m =>
  match c m with
  | (Ok a, m') => f a m'
  | (Raise e, m') => (Raise e, m')
  | (Spin, m') => (Spin, m')
  end.

(** Code supplied by the caller (the wrapped function, [time_func],
    [sleep_func]) runs on the world and leaves no mark in the trace. *)
Definition ufun (A : Type) : Type := world -> result A * world.

Definition log (e : event) (m : machine) : machine :=
  {| m_world := m_world m; m_trace := m_trace m ++ [e] |}.

Definition with_world (w : world) (m : machine) : machine :=
  {| m_world := w; m_trace := m_trace m |}.

Definition with_store (s : gmap string entry) (w : world) : world :=
  {| w_store := s; w_now := w_now w; w_pid := w_pid w; w_tid := w_tid w |}.

Definition with_now (t : float) (w : world) : world :=
  {| w_store := w_store w; w_now := t; w_pid := w_pid w; w_tid := w_tid w |}.

Definition with_ident (pid tid : Z) (w : world) : world :=
  {| w_store := w_store w; w_now := w_now w; w_pid := pid; w_tid := tid |}.

Definition liftR {A} (r : result A) : M A := fun m => (r, m).

Definition liftU {A} (f : ufun A) : M A := fun m =>
  let '(r, w) := f (m_world m) in (r, with_world w m).

Definition raise {A} (e : exn) : M A := liftR (Raise e).
Definition spin {A} : M A := liftR Spin.

(** [time.time()] and [time.sleep(d)] of the standard library: the clock is
    read, and sleeping moves it forward by the requested amount. *)
Definition time_time : ufun pyval := fun w => (Ok (VFloat (w_now w)), w).

Definition time_sleep (d : pyval) : ufun unit := fun w =>
  match as_float d with
  | Ok f =>
      if PrimFloat.leb 0 f
      then (if PrimFloat.eqb f infinity then (Raise OverflowError, w)
            else (Ok tt, with_now (w_now w + f)%float w))
      else (Raise ValueError, w)
  | Raise e => (Raise e, w)
  | Spin => (Spin, w)
  end.

(** [time.sleep(d)] as the recipes call it. *)
Definition sleep (d : pyval) : M unit := fun m =>
  liftU (time_sleep d) (log (ESleep d) m).

(** *** Store contract *)

(** Modelled from the spec: the cache is external to recipes.py. A row
    written with [expire] seconds lives until the clock reaches the time of
    the write plus [expire]; a row written without it never expires on its
    own. *)
Definition live (now : float) (e : entry) : bool :=
  match e_expire_time e with
  | None => true
  | Some t => PrimFloat.ltb now t
  end.

Definition lookup_live (w : world) (key : string) : option entry :=
  match w_store w !! key with
  | Some e => if live (w_now w) e then Some e else None
  | None => None
  end.

Definition mk_entry (w : world) (value : pyval) (expire : option float)
    (tag : option string) : entry :=
  {| e_value := value;
     e_expire_time := (fun s => (w_now w + s)%float) <$> expire;
     e_tag := tag |}.

Definition store_insert (key : string) (e : entry) (w : world) : world :=
  with_store (<[key := e]> (w_store w)) w.

Definition store_delete (key : string) (w : world) : world :=
  with_store (delete key (w_store w)) w.

(** Modelled from the spec: [get(key, default)] returns the stored value or
    [default] if absent. *)
Definition cache_get (key : string) (default : pyval) (retry : bool) : M pyval :=
  fun m =>
    (Ok (from_option e_value default (lookup_live (m_world m) key)),
     log (EGet key default retry) m).

(** Modelled from the spec: [set(key, value, expire, tag)] is an
    unconditional upsert. *)
Definition cache_set (key : string) (value : pyval) (expire : option float)
    (tag : option string) (retry : bool) : M bool :=
  fun m =>
    let w := m_world m in
    (Ok true,
     log (ESet key value expire tag retry)
       (with_world (store_insert key (mk_entry w value expire tag) w) m)).

(** Modelled from the spec: [add(key, value, expire, tag)] inserts only if
    absent and returns whether it did. *)
Definition cache_add (key : string) (value : pyval) (expire : option float)
    (tag : option string) (retry : bool) : M bool :=
  fun m =>
    let w := m_world m in
    match lookup_live w key with
    | Some _ => (Ok false, log (EAdd key value expire tag retry) m)
    | None =>
        (Ok true,
         log (EAdd key value expire tag retry)
           (with_world (store_insert key (mk_entry w value expire tag) w) m))
    end.

(** Modelled from the spec: [delete(key)] removes the key and returns
    whether it existed. *)
Definition cache_delete (key : string) (retry : bool) : M bool :=
  fun m =>
    let w := m_world m in
    (Ok (bool_decide (is_Some (lookup_live w key))),
     log (EDelete key retry) (with_world (store_delete key w) m)).

(** Modelled from the spec: [pop(key, default)] is an atomic
    get-then-delete. *)
Definition cache_pop (key : string) (default : pyval) (retry : bool) : M pyval :=
  fun m =>
    let w := m_world m in
    (Ok (from_option e_value default (lookup_live w key)),
     log (EPop key default retry) (with_world (store_delete key w) m)).

(** Modelled from the spec: [transact()] opens a scope whose writes become
    visible together when the scope is left, or not at all when the body
    raises. *)
Definition transact {A} (body : M A) : M A := fun m =>
  match body (log EBegin m) with
  | (Ok a, m') => (Ok a, log ECommit m')
  | (r, m') =>
      (r, log ERollback
            (with_world (with_store (w_store (m_world m)) (m_world m')) m'))
  end.

(** ** Averager *)

Module Averager.

(** The [_cache] attribute of every recipe object is the cache of the
    machine. *)
Record t : Type := {
  _key : string;
  _expire : option float;
  _tag : option string
}.

Definition __init__ (key : string) (expire : option float)
    (tag : option string) : M t :=
  mret {| _key := key; _expire := expire; _tag := tag |}.

(** [(0.0, 0)] *)
Definition default : pyval := VPair (VFloat 0) (VInt 0).

(** [add]: in one transaction, read [(total, count)], add [value] to the
    total and 1 to the count, and store the pair. *)
Definition add (self : t) (value : pyval) : M unit :=
  transact (
    v ← cache_get (_key self) default false;
    '(total, count) ← liftR (unpack2 v);
    total ← liftR (py_add total value);
    count ← liftR (py_add count (VInt 1));
    cache_set (_key self) (VPair total count) (_expire self) (_tag self) false;;
    mret tt).

(** [0.0 if count == 0 else total / count] *)
Definition average (total count : pyval) : result pyval :=
  if py_eq count (VInt 0) then Ok (VFloat 0) else py_truediv total count.

(** [get]: one read, then the average. *)
Definition get (self : t) : M pyval :=
  v ← cache_get (_key self) default true;
  '(total, count) ← liftR (unpack2 v);
  liftR (average total count).

(** [pop]: as [get], with [cache.pop] for the read. *)
Definition pop (self : t) : M pyval :=
  v ← cache_pop (_key self) default true;
  '(total, count) ← liftR (unpack2 v);
  liftR (average total count).

End Averager.

(** ** Lock *)

Module Lock.

Record t : Type := {
  _key : string;
  _expire : option float;
  _tag : option string
}.

Definition __init__ (key : string) (expire : option float)
    (tag : option string) : M t :=
  mret {| _key := key; _expire := expire; _tag := tag |}.

(** One turn of the loop of [acquire]: the call to [add]. *)
Definition attempt (self : t) : M bool :=
  cache_add (_key self) VNone (_expire self) (_tag self) true.

(** [acquire]: call [add] until it succeeds, sleeping a millisecond after
    each failure; [fuel] bounds the turns of the [while True] loop. *)
Fixpoint acquire (fuel : nat) (self : t) : M unit :=
  match fuel with
  | O => spin
  | S n =>
      added ← attempt self;
      if added : bool then mret tt
      else sleep (VFloat 0.001);; acquire n self
  end.

(** [release]: delete the key, whoever holds the lock. *)
Definition release (self : t) : M unit :=
  cache_delete (_key self) true;; mret tt.

Definition __enter__ (fuel : nat) (self : t) : M unit := acquire fuel self.
Definition __exit__ (self : t) : M unit := release self.

End Lock.

(** ** RLock *)

Module RLock.

Record t : Type := {
  _key : string;
  _expire : option float;
  _tag : option string;
  _value : string
}.

(** ['{}-{}'.format(pid, tid)] *)
Definition token (pid tid : Z) : string := pretty pid +:+ "-" +:+ pretty tid.

(** [__init__]: the token is made here, from [os.getpid()] and
    [threading.get_ident()] of the thread that builds the object. *)
Definition __init__ (key : string) (expire : option float)
    (tag : option string) : M t := fun m =>
  let pid := w_pid (m_world m) in
  let tid := w_tid (m_world m) in
  (Ok {| _key := key; _expire := expire; _tag := tag; _value := token pid tid |}, m).

(** [(None, 0)] *)
Definition default : pyval := VPair VNone (VInt 0).

(** One turn of the loop of [acquire]: the transaction; [true] when it
    wrote and [acquire] returns. *)
Definition attempt (self : t) : M bool :=
  transact (
    v ← cache_get (_key self) default false;
    '(value, count) ← liftR (unpack2 v);
    if py_eq (VStr (_value self)) value || py_eq count (VInt 0)
    then
      count' ← liftR (py_add count (VInt 1));
      cache_set (_key self) (VPair (VStr (_value self)) count')
        (_expire self) (_tag self) false;;
      mret true
    else mret false).

Fixpoint acquire (fuel : nat) (self : t) : M unit :=
  match fuel with
  | O => spin
  | S n =>
      done ← attempt self;
      if done : bool then mret tt
      else sleep (VFloat 0.001);; acquire n self
  end.

(** [release]: [is_owned = self._value == value and count > 0], the
    [assert] (assertions are on), then the write of [(value, count - 1)]. *)
Definition release (self : t) : M unit :=
  transact (
    v ← cache_get (_key self) default false;
    '(value, count) ← liftR (unpack2 v);
    is_owned ← (if py_eq (VStr (_value self)) value
                then liftR (py_gt count (VInt 0))
                else mret false);
    if is_owned : bool
    then
      count' ← liftR (py_sub count (VInt 1));
      cache_set (_key self) (VPair value count') (_expire self) (_tag self) false;;
      mret tt
    else raise (AssertionError "cannot release un-acquired lock")).

Definition __enter__ (fuel : nat) (self : t) : M unit := acquire fuel self.
Definition __exit__ (self : t) : M unit := release self.

End RLock.

(** ** BoundedSemaphore *)

Module BoundedSemaphore.

Record t : Type := {
  _key : string;
  _value : pyval;
  _expire : option float;
  _tag : option string
}.

Definition __init__ (key : string) (value : pyval) (expire : option float)
    (tag : option string) : M t :=
  mret {| _key := key; _value := value; _expire := expire; _tag := tag |}.

(** One turn of the loop of [acquire]. *)
Definition attempt (self : t) : M bool :=
  transact (
    value ← cache_get (_key self) (_value self) false;
    positive ← liftR (py_gt value (VInt 0));
    if positive : bool
    then
      value' ← liftR (py_sub value (VInt 1));
      cache_set (_key self) value' (_expire self) (_tag self) false;;
      mret true
    else mret false).

Fixpoint acquire (fuel : nat) (self : t) : M unit :=
  match fuel with
  | O => spin
  | S n =>
      done ← attempt self;
      if done : bool then mret tt
      else sleep (VFloat 0.001);; acquire n self
  end.

(** [release]: [assert self._value > value], then the write of
    [value + 1]. *)
Definition release (self : t) : M unit :=
  transact (
    value ← cache_get (_key self) (_value self) false;
    below ← liftR (py_gt (_value self) value);
    if below : bool
    then
      value' ← liftR (py_add value (VInt 1));
      cache_set (_key self) value' (_expire self) (_tag self) false;;
      mret tt
    else raise (AssertionError "cannot release un-acquired semaphore")).

Definition __enter__ (fuel : nat) (self : t) : M unit := acquire fuel self.
Definition __exit__ (self : t) : M unit := release self.

End BoundedSemaphore.

(** ** Decorated functions *)

(** A Python function object: the attributes the decorators read and what
    calling it does. *)
Record pyfunc : Type := {
  f_module : string;
  f_qualname : option string;
  f_name : string;
  f_call : list pyval -> ufun pyval
}.

Definition invoke (func : pyfunc) (args : list pyval) : M pyval := fun m =>
  liftU (f_call func args) (log (EInvoke args) m).

(** [float(x)] on the values of the fragment: a number converts, a string
    is taken not to spell one. *)
Definition py_float (v : pyval) : result pyval :=
  match v with
  | VStr _ => Raise ValueError
  | _ => f ← as_float v; Ok (VFloat f)
  end.

(** ** throttle *)

Module throttle.

(** The arguments of [throttle(...)]. *)
Record t : Type := {
  count : pyval;
  seconds : pyval;
  name : option string;
  expire : option float;
  tag : option string;
  time_func : ufun pyval;
  sleep_func : pyval -> ufun unit
}.

(** The variables of [decorator] that [wrapper] closes over. *)
Record closure : Type := {
  rate : pyval;
  key : string
}.

(** [func.__module__ + '.' + func.__qualname__], with [__name__] where
    there is no [__qualname__]. *)
Definition default_key (func : pyfunc) : string :=
  f_module func +:+ "." +:+ default (f_name func) (f_qualname func).

(** [decorator]: compute the rate and the key, read the time and store
    the full bucket [(now, count)]. *)
Definition decorator (th : t) (func : pyfunc) : M closure :=
  fs ← liftR (py_float (seconds th));
  rate ← liftR (py_truediv (count th) fs);
  let key := default (default_key func) (name th) in
  now ← liftU (time_func th);
  cache_set key (VPair now (count th)) (expire th) (tag th) true;;
  mret {| rate := rate; key := key |}.

(** The body of the [with cache.transact():] block; its value is [delay]. *)
Definition bucket_step (th : t) (cl : closure) : M pyval :=
  v ← cache_get (key cl) VNone true;
  '(last, tally) ← liftR (unpack2 v);
  now ← liftU (time_func th);
  elapsed ← liftR (py_sub now last);
  accrued ← liftR (py_mul elapsed (rate cl));
  tally ← liftR (py_add tally accrued);
  over ← liftR (py_gt tally (count th));
  if over : bool
  then
    left ← liftR (py_sub (count th) (VInt 1));
    cache_set (key cl) (VPair now left) (expire th) None true;;
    mret (VInt 0)
  else
    enough ← liftR (py_ge tally (VInt 1));
    if enough : bool
    then
      left ← liftR (py_sub tally (VInt 1));
      cache_set (key cl) (VPair now left) (expire th) None true;;
      mret (VInt 0)
    else
      short ← liftR (py_sub (VInt 1) tally);
      liftR (py_truediv short (rate cl)).

(** [sleep_func(delay)] *)
Definition pause (th : t) (delay : pyval) : M unit := fun m =>
  liftU (sleep_func th delay) (log (ESleep delay) m).

(** The [while True] loop of [wrapper]. *)
Fixpoint wait (fuel : nat) (th : t) (cl : closure) : M unit :=
  match fuel with
  | O => spin
  | S n =>
      delay ← transact (bucket_step th cl);
      if py_truthy delay
      then pause th delay;; wait n th cl
      else mret tt
  end.

(** [wrapper]: the loop, then [return func(...)]. *)
Definition wrapper (fuel : nat) (th : t) (cl : closure) (func : pyfunc)
    (args : list pyval) : M pyval :=
  wait fuel th cl;; invoke func args.

End throttle.

(** ** barrier *)

(** What [barrier] needs of [lock_factory]: it is called as
    [lock_factory(cache, key, expire=expire, tag=tag)] and the object it
    returns is used in a [with] statement. *)
Class LockFactory (L : Type) : Type := {
  lock_new : string -> option float -> option string -> M L;
  lock_enter : nat -> L -> M unit;
  lock_exit : L -> M unit
}.

#[global] Instance Lock_factory : LockFactory Lock.t := {
  lock_new := Lock.__init__;
  lock_enter := Lock.__enter__;
  lock_exit := Lock.__exit__
}.

#[global] Instance RLock_factory : LockFactory RLock.t := {
  lock_new := RLock.__init__;
  lock_enter := RLock.__enter__;
  lock_exit := RLock.__exit__
}.

#[global] Instance BoundedSemaphore_factory : LockFactory BoundedSemaphore.t := {
  lock_new key expire tag := BoundedSemaphore.__init__ key (VInt 1) expire tag;
  lock_enter := BoundedSemaphore.__enter__;
  lock_exit := BoundedSemaphore.__exit__
}.

Module barrier.

(** Modelled from the spec: [full_name] lives in the memo module, which is
    not part of recipes.py; the key defaults to the wrapped function's
    fully-qualified name. *)
Definition full_name (func : pyfunc) : string :=
  f_module func +:+ "." +:+ default (f_name func) (f_qualname func).

Definition decorator {L} `{LockFactory L} (name : option string)
    (expire : option float) (tag : option string) (func : pyfunc) : M L :=
  let key := default (full_name func) name in
  lock_new key expire tag.

(** [with lock: return func(...)]: the lock is released on
    every way out of the block. *)
Definition wrapper {L} `{LockFactory L} (fuel : nat) (lock : L)
    (func : pyfunc) (args : list pyval) : M pyval := fun m =>
  match lock_enter fuel lock m with
  | (Ok _, m1) =>
      match invoke func args m1 with
      | (Spin, m2) => (Spin, m2)
      | (r, m2) =>
          match lock_exit lock m2 with
          | (Ok _, m3) => (r, m3)
          | (Raise e, m3) => (Raise e, m3)
          | (Spin, m3) => (Spin, m3)
          end
      end
  | (Raise e, m1) => (Raise e, m1)
  | (Spin, m1) => (Spin, m1)
  end.

End barrier.

(** ** Runs and observations *)

(** The clock shows [t] when the next call is made. *)
Definition at_time (t : float) (m : machine) : machine :=
  with_world (with_now t (m_world m)) m.

(** The next call is made by thread [tid] of process [pid]. *)
Definition as_thread (pid tid : Z) (m : machine) : machine :=
  with_world (with_ident pid tid (m_world m)) m.

(** The value a reader finds under [key], if any. *)
Definition stored (m : machine) (key : string) : option pyval :=
  e_value <$> lookup_live (m_world m) key.

(** The row under [key], if there is one, has not expired at time [t]. *)
Definition retained (m : machine) (key : string) (t : float) : bool :=
  match w_store (m_world m) !! key with
  | Some e => live t e
  | None => true
  end.

(** The events a computation added to the trace. *)
Definition emitted (before after : machine) (evs : list event) : Prop :=
  m_trace after = m_trace before ++ evs.

Definition is_write (e : event) : bool :=
  match e with
  | ESet _ _ _ _ _ | EAdd _ _ _ _ _ | EDelete _ _ | EPop _ _ _ => true
  | _ => false
  end.

Definition is_invoke (e : event) : bool :=
  match e with
  | EInvoke _ => true
  | _ => false
  end.

(** The tag handed to the store by a [set] or [add] call. *)
Definition write_tag (e : event) : option (option string) :=
  match e with
  | ESet _ _ _ tag _ | EAdd _ _ _ tag _ => Some tag
  | _ => None
  end.

(** *** Averager *)

(** A number as a float; used for values that convert without overflow. *)
Definition float_of (v : pyval) : float :=
  match v with
  | VInt z => Z2F z
  | VFloat f => f
  | _ => nan
  end.

Definition convertible (v : pyval) : Prop := as_float v = Ok (float_of v).

(** The mean as the specification words it: [0.0] for no values, otherwise
    the sum in call order divided by the number of values, in binary64. *)
Definition running_mean (vs : list pyval) : float :=
  match vs with
  | [] => 0%float
  | _ =>
      (fold_left (fun acc v => (acc + float_of v)%float) vs 0%float
       / Z2F (Z.of_nat (length vs)))%float
  end.

(** [add(v)] called at the times given, one call after the other. *)
Fixpoint adds (self : Averager.t) (calls : list (float * pyval)) (m : machine) : machine :=
  match calls with
  | [] => m
  | (t, v) :: rest => adds self rest (snd (Averager.add self v (at_time t m)))
  end.

(** No row of the key has expired when the next call of the run, or the
    final read at [t_end], is made. *)
Fixpoint kept (self : Averager.t) (calls : list (float * pyval)) (t_end : float)
    (m : machine) : bool :=
  match calls with
  | [] => retained m (Averager._key self) t_end
  | (t, v) :: rest =>
      retained m (Averager._key self) t
      && kept self rest t_end (snd (Averager.add self v (at_time t m)))
  end.

(** The running mean, for one run: the read made at [t_end] after the
    calls returns the mean of the values added. *)
Definition mean_after_adds (self : Averager.t) (calls : list (float * pyval))
    (t_end : float) (m : machine) : Prop :=
  fst (Averager.get self (at_time t_end (adds self calls m)))
  = Ok (VFloat (running_mean (snd <$> calls))).

(** *** Sample objects *)

(** A machine with an empty cache. *)
Definition boot : machine :=
  {| m_world := {| w_store := ∅; w_now := 0%float; w_pid := 4242; w_tid := 1 |};
     m_trace := [] |}.

(** [Averager(cache, 'latency')], and the same with a one-second expiry. *)
Definition latency : Averager.t :=
  {| Averager._key := "latency"; Averager._expire := None; Averager._tag := None |}.

Definition latency_1s : Averager.t :=
  {| Averager._key := "latency"; Averager._expire := Some 1%float;
     Averager._tag := None |}.

(** [Lock(cache, 'report-123')], and the same with a one-second expiry. *)
Definition report : Lock.t :=
  {| Lock._key := "report-123"; Lock._expire := None; Lock._tag := None |}.

Definition report_1s : Lock.t :=
  {| Lock._key := "report-123"; Lock._expire := Some 1%float; Lock._tag := None |}.

(** *** Callers of one Lock *)

(** Where a caller is: outside, inside [acquire()] (between two turns of
    its loop), or between [acquire()] returning and its [release()]. *)
Inductive status : Type := Idle | Waiting | Holding.

#[global] Instance status_eq_dec : EqDecision status.
Proof. solve_decision. Defined.

Record system : Type := {
  s_machine : machine;
  s_status : nat -> status
}.

Definition set_status (c : nat) (st : status) (f : nat -> status) : nat -> status :=
  fun c' => if decide (c' = c) then st else f c'.

Arguments set_status : simpl never.

(** What can happen next: a caller enters [acquire()], a waiting caller
    makes its next call to [add] or sleeps after a failed one, a holder
    calls [release()], or time passes.  Each store call is atomic, so any
    interleaving of callers is a sequence of these. *)
Inductive action : Type :=
| Call (c : nat)
| Attempt (c : nat)
| Nap (c : nat)
| Release (c : nat)
| Tick (t : float).

Definition lock_step (L : Lock.t) (s : system) (a : action) : system :=
  let m := s_machine s in
  let st := s_status s in
  match a with
  | Call c =>
      if decide (st c = Idle)
      then {| s_machine := m; s_status := set_status c Waiting st |}
      else s
  | Attempt c =>
      if decide (st c = Waiting)
      then
        match Lock.attempt L m with
        | (Ok true, m') => {| s_machine := m'; s_status := set_status c Holding st |}
        | (_, m') => {| s_machine := m'; s_status := st |}
        end
      else s
  | Nap c =>
      if decide (st c = Waiting)
      then {| s_machine := snd (sleep (VFloat 0.001) m); s_status := st |}
      else s
  | Release c =>
      if decide (st c = Holding)
      then {| s_machine := snd (Lock.release L m); s_status := set_status c Idle st |}
      else s
  | Tick t => {| s_machine := at_time t m; s_status := st |}
  end.

(** Nobody has called yet. *)
Definition lock_start (m : machine) : system :=
  {| s_machine := m; s_status := fun _ => Idle |}.

Definition lock_run (L : Lock.t) (acts : list action) (m : machine) : system :=
  fold_left (lock_step L) acts (lock_start m).

Definition holds (s : system) (c : nat) : Prop := s_status s c = Holding.

(** No call to [add] in the run is made after the row of the lock has
    expired: whoever holds the lock releases it within its expiry. *)
Fixpoint leases_kept (L : Lock.t) (acts : list action) (s : system) : bool :=
  match acts with
  | [] => true
  | a :: rest =>
      match a with
      | Attempt _ =>
          retained (s_machine s) (Lock._key L) (w_now (m_world (s_machine s)))
      | _ => true
      end
      && leases_kept L rest (lock_step L s a)
  end.

(** *** Callers of one BoundedSemaphore *)

Inductive sem_call : Type :=
| SAcquire (fuel : nat)
| SRelease
| STick (t : float).

Definition sem_step (S : BoundedSemaphore.t) (m : machine) (c : sem_call) : machine :=
  match c with
  | SAcquire fuel => snd (BoundedSemaphore.acquire fuel S m)
  | SRelease => snd (BoundedSemaphore.release S m)
  | STick t => at_time t m
  end.

Definition sem_run (S : BoundedSemaphore.t) (calls : list sem_call) (m : machine) : machine :=
  fold_left (sem_step S) calls m.

(** The row under [key], if there is one, holds an integer in [0, bound]. *)
Definition in_bounds (bound : Z) (key : string) (m : machine) : bool :=
  match w_store (m_world m) !! key with
  | Some e =>
      match e_value e with
      | VInt a => (0 <=? a) && (a <=? bound)
      | _ => false
      end
  | None => true
  end.

(** What a transaction of the semaphore reads as [value]. *)
Definition available (S : BoundedSemaphore.t) (m : machine) : pyval :=
  from_option e_value (BoundedSemaphore._value S)
    (lookup_live (m_world m) (BoundedSemaphore._key S)).

(** The value in the row under [key], expired or not. *)
Definition row_value (m : machine) (key : string) : option pyval :=
  e_value <$> w_store (m_world m) !! key.

(** [BoundedSemaphore(cache, 'max-connections', value=2)] *)
Definition max_connections : BoundedSemaphore.t :=
  {| BoundedSemaphore._key := "max-connections";
     BoundedSemaphore._value := VInt 2;
     BoundedSemaphore._expire := None;
     BoundedSemaphore._tag := None |}.

(** *** RLock *)

(** What a transaction of the lock reads as [(value, count)]. *)
Definition held (self : RLock.t) (m : machine) : pyval :=
  from_option e_value RLock.default (lookup_live (m_world m) (RLock._key self)).

(** [RLock(cache, 'user-123')] built by thread 1 of process 4242. *)
Definition user_123 : RLock.t :=
  {| RLock._key := "user-123"; RLock._expire := None; RLock._tag := None;
     RLock._value := RLock.token 4242 1 |}.

(** Calls made through RLock objects, each by some thread. *)
Inductive rlock_call : Type :=
| RAcquire (self : RLock.t) (fuel : nat)
| RRelease (self : RLock.t)
| RTick (t : float).

Definition rlock_step (m : machine) (c : rlock_call) : machine :=
  match c with
  | RAcquire self fuel => snd (RLock.acquire fuel self m)
  | RRelease self => snd (RLock.release self m)
  | RTick t => at_time t m
  end.

Definition rlock_run (calls : list rlock_call) (m : machine) : machine :=
  fold_left rlock_step calls m.

Definition on_key (key : string) (c : rlock_call) : Prop :=
  match c with
  | RAcquire self _ | RRelease self => RLock._key self = key
  | RTick _ => True
  end.

(** The row under [key], if there is one, holds an owner token and a
    depth that is not negative. *)
Definition rlock_shape (key : string) (m : machine) : Prop :=
  match w_store (m_world m) !! key with
  | Some e => exists s d, e_value e = VPair (VStr s) (VInt d) /\ 0 <= d
  | None => True
  end.

(** A computation that neither reads nor changes the identity of the
    running thread: run by another thread it does the same. *)
Definition ident_free {A} (c : M A) : Prop :=
  forall pid tid m,
    c (as_thread pid tid m) = (fst (c m), as_thread pid tid (snd (c m))).

(** *** throttle *)

(** [tally += (now - last) * rate] *)
Definition accrue (cl : throttle.closure) (last tally now : pyval) : result pyval :=
  elapsed ← py_sub now last;
  accrued ← py_mul elapsed (throttle.rate cl);
  py_add tally accrued.



(** How often the wrapped function has been called. *)
Definition invocations (m : machine) : nat :=
  length (List.filter is_invoke (m_trace m)).

(** A computation that writes nothing to the cache: it leaves the rows as
    they are and makes no call that writes. *)
Definition no_write {A} (c : M A) : Prop :=
  forall m,
    w_store (m_world (snd (c m))) = w_store (m_world m)
    /\ exists evs, emitted m (snd (c m)) evs
                   /\ List.filter is_write evs = [].

(** A function that returns the time, and throttles of it: the one of the
    docstring, one with a name and a tag, and one that expires. *)
Definition clock_reading : pyfunc :=
  {| f_module := "__main__"; f_qualname := Some "clock_reading";
     f_name := "clock_reading";
     f_call := fun _ w => (Ok (VFloat (w_now w)), w) |}.

Definition once_a_second : throttle.t :=
  {| throttle.count := VInt 1; throttle.seconds := VInt 1;
     throttle.name := None; throttle.expire := None; throttle.tag := None;
     throttle.time_func := time_time; throttle.sleep_func := time_sleep |}.

Definition tagged : throttle.t :=
  {| throttle.count := VInt 1; throttle.seconds := VInt 1;
     throttle.name := Some "calls"; throttle.expire := None;
     throttle.tag := Some "limits";
     throttle.time_func := time_time; throttle.sleep_func := time_sleep |}.

Definition short_lived : throttle.t :=
  {| throttle.count := VInt 1; throttle.seconds := VInt 1;
     throttle.name := Some "calls"; throttle.expire := Some 1%float;
     throttle.tag := None;
     throttle.time_func := time_time; throttle.sleep_func := time_sleep |}.

(** The closure [decorator] returns for them. *)
Definition calls_closure : throttle.closure :=
  {| throttle.rate := VFloat 1; throttle.key := "calls" |}.

(** The machine after [@throttle(...)] decorated the function at boot. *)
Definition decorated (th : throttle.t) : machine :=
  snd (throttle.decorator th clock_reading boot).

(** *** Invariants *)

(** The accumulator a reader of the Averager finds: the stored pair, or the
    default when there is no row. *)
Definition acc (self : Averager.t) (m : machine) (total : float) (count : Z) : Prop :=
  match w_store (m_world m) !! Averager._key self with
  | None => total = 0%float /\ count = 0
  | Some e => e_value e = VPair (VFloat total) (VInt count)
  end.

(** The row under [key], if there is one, was written without expiry. *)
Definition never_expires (key : string) (m : machine) : Prop :=
  forall e, w_store (m_world m) !! key = Some e -> e_expire_time e = None.

(** While somebody holds the lock its row is in the cache and is one of the
    rows [P], and nobody else holds the lock. *)
Definition lock_inv (L : Lock.t) (P : entry -> Prop) (s : system) : Prop :=
  (forall c, holds s c ->
     exists e, w_store (m_world (s_machine s)) !! Lock._key L = Some e /\ P e)
  /\ (forall c1 c2, holds s c1 -> holds s c2 -> c1 = c2).

(** When [add] is called, the row of the lock, if it is one of [P], is
    live. *)
Definition lock_guard (L : Lock.t) (P : entry -> Prop) (s : system) (a : action) : Prop :=
  match a with
  | Attempt _ =>
      forall e, w_store (m_world (s_machine s)) !! Lock._key L = Some e ->
                P e -> live (w_now (m_world (s_machine s))) e = true
  | _ => True
  end.

(** The tags handed to the store by the [set] and [add] calls made between
    two machines. *)
Definition tags_written (before after : machine) : list (option string) :=
  omap write_tag (drop (length (m_trace before)) (m_trace after)).

(** *** Calls in a row *)

(** [k] calls one after the other; the first that does not return ends the
    run. *)
Fixpoint repeat_call (k : nat) (c : M unit) : M unit :=
  match k with
  | O => mret tt
  | S k' => c;; repeat_call k' c
  end.

(** A row written now with [expire] can be read now: there is no expiry, or
    the clock is before the clock plus [expire]. *)
Definition outlives (w : world) (expire : option float) : bool :=
  live (w_now w) (mk_entry w VNone expire None).

(** The events of [n] turns of a loop that makes the calls [turn] each
    time round. *)
Definition turns (n : nat) (turn : list event) : list event :=
  mjoin (replicate n turn).

(** The row under [key], if there is one, never expires. *)
Definition permanent (m : machine) (key : string) : bool :=
  match w_store (m_world m) !! key with
  | Some e => bool_decide (e_expire_time e = None)
  | None => true
  end.

(** A second [Lock(cache, 'report-123')], made elsewhere. *)
Definition report_again : Lock.t :=
  {| Lock._key := "report-123"; Lock._expire := None; Lock._tag := Some "again" |}.

(** The machine after a transaction of an RLock that read the state in [m]
    and wrote [value]. *)
Definition rlock_wrote (self : RLock.t) (m : machine) (value : pyval) : machine :=
  log ECommit
    (log (ESet (RLock._key self) value (RLock._expire self) (RLock._tag self) false)
       (with_world
          (store_insert (RLock._key self)
             (mk_entry (m_world m) value (RLock._expire self) (RLock._tag self))
             (m_world m))
          (log (EGet (RLock._key self) RLock.default false) (log EBegin m)))).

(** [RLock(cache, 'user-123')] built by thread 2 of process 4242. *)
Definition user_123_other : RLock.t :=
  {| RLock._key := "user-123"; RLock._expire := None; RLock._tag := None;
     RLock._value := RLock.token 4242 2 |}.

(** The machine after a transaction of a semaphore that read the state in
    [m] and wrote [value]. *)
Definition sem_wrote (S : BoundedSemaphore.t) (m : machine) (value : pyval) : machine :=
  log ECommit
    (log (ESet (BoundedSemaphore._key S) value (BoundedSemaphore._expire S)
            (BoundedSemaphore._tag S) false)
       (with_world
          (store_insert (BoundedSemaphore._key S)
             (mk_entry (m_world m) value (BoundedSemaphore._expire S)
                (BoundedSemaphore._tag S))
             (m_world m))
          (log (EGet (BoundedSemaphore._key S) (BoundedSemaphore._value S) false)
             (log EBegin m)))).

(** A function that fails. *)
Definition failing_work : pyfunc :=
  {| f_module := "__main__"; f_qualname := Some "failing_work";
     f_name := "failing_work";
     f_call := fun _ w => (Raise ValueError, w) |}.

(** A throttle that allows no calls, [throttle(cache, 0, 1, name='calls')],
    and the closure [decorator] returns for it. *)
Definition no_calls : throttle.t :=
  {| throttle.count := VInt 0; throttle.seconds := VInt 1;
     throttle.name := Some "calls"; throttle.expire := None; throttle.tag := None;
     throttle.time_func := time_time; throttle.sleep_func := time_sleep |}.

Definition no_calls_closure : throttle.closure :=
  {| throttle.rate := VFloat 0; throttle.key := "calls" |}.

(** [throttle(cache, 1, 0)] *)
Definition zero_seconds : throttle.t :=
  {| throttle.count := VInt 1; throttle.seconds := VInt 0;
     throttle.name := None; throttle.expire := None; throttle.tag := None;
     throttle.time_func := time_time; throttle.sleep_func := time_sleep |}.

(** The RLock that [barrier(cache, RLock)] builds when thread 1 of process
    4242 decorates [clock_reading]. *)
Definition barrier_rlock : RLock.t :=
  {| RLock._key := "__main__.clock_reading"; RLock._expire := None;
     RLock._tag := None; RLock._value := RLock.token 4242 1 |}.

(** A string without the character [-]. *)
Fixpoint no_dash (s : string) : bool :=
  match s with
  | EmptyString => true
  | String c s' => negb (bool_decide (String c EmptyString = "-")) && no_dash s'
  end.

(** The semaphore that [barrier(cache, BoundedSemaphore)] builds when it
    decorates [clock_reading]. *)
Definition barrier_semaphore : BoundedSemaphore.t :=
  {| BoundedSemaphore._key := "__main__.clock_reading";
     BoundedSemaphore._value := VInt 1;
     BoundedSemaphore._expire := None;
     BoundedSemaphore._tag := None |}.

(** * Properties *)

(** ** Running computations *)

Ltac munfold :=
  unfold raise, spin in *;
  unfold mbind, mret, M_bind, M_ret, result_bind, result_ret, liftR, liftU in *.

Lemma lookup_live_retained m key t :
  retained m key t = true ->
  lookup_live (m_world (at_time t m)) key = w_store (m_world m) !! key.
Proof.
  unfold retained, lookup_live. simpl.
  destruct (w_store (m_world m) !! key) as [e|]; [|done].
  by intros ->.
Qed.

Lemma int_to_float_small z :
  Z.abs z < float_overflow_bound -> int_to_float z = Ok (Z2F z).
Proof.
  intros H. unfold int_to_float.
  destruct (float_overflow_bound <=? Z.abs z) eqn:E; [lia|done].
Qed.

Lemma py_add_float t v :
  convertible v -> py_add (VFloat t) v = Ok (VFloat (t + float_of v)).
Proof.
  unfold convertible, py_add, py_arith.
  destruct v; simpl; try discriminate; [|done].
  by intros ->.
Qed.

Lemma py_gt_int a b : py_gt (VInt a) (VInt b) = Ok (b <? a).
Proof.
  unfold py_gt. simpl. f_equal.
  destruct (Z.compare_spec a b); symmetry;
    [apply Z.ltb_ge | apply Z.ltb_ge | apply Z.ltb_lt]; lia.
Qed.

Lemma py_eq_int a b : py_eq (VInt a) (VInt b) = (a =? b).
Proof.
  unfold py_eq. simpl. destruct (Z.compare_spec a b); symmetry;
    [apply Z.eqb_eq | apply Z.eqb_neq | apply Z.eqb_neq]; lia.
Qed.

(** ** Averager *)

Section averager.
Variable self : Averager.t.

Lemma acc_read m t total count :
  retained m (Averager._key self) t = true -> acc self m total count ->
  from_option e_value Averager.default
    (lookup_live (m_world (at_time t m)) (Averager._key self))
  = VPair (VFloat total) (VInt count).
Proof.
  intros Hr Ha. rewrite (lookup_live_retained _ _ _ Hr). unfold acc in Ha.
  destruct (w_store (m_world m) !! Averager._key self) as [e|]; simpl.
  - done.
  - by destruct Ha as [-> ->].
Qed.

(** What [add] does when it reads the pair [(total, count)]. *)
Lemma add_run m v total count :
  from_option e_value Averager.default
    (lookup_live (m_world m) (Averager._key self))
  = VPair (VFloat total) (VInt count) ->
  convertible v ->
  let value := VPair (VFloat (total + float_of v)) (VInt (count + 1)) in
  Averager.add self v m =
    (Ok tt,
     log ECommit
       (log (ESet (Averager._key self) value (Averager._expire self)
               (Averager._tag self) false)
          (with_world
             (store_insert (Averager._key self)
                (mk_entry (m_world m) value (Averager._expire self)
                   (Averager._tag self))
                (m_world m))
             (log (EGet (Averager._key self) Averager.default false)
                (log EBegin m))))).
Proof.
  intros Hread Hv. unfold Averager.add, transact, cache_get. munfold.
  change (m_world (log EBegin m)) with (m_world m).
  rewrite Hread. simpl. rewrite (py_add_float _ _ Hv). simpl. done.
Qed.

Lemma add_acc m t v total count :
  retained m (Averager._key self) t = true -> convertible v -> acc self m total count ->
  acc self (snd (Averager.add self v (at_time t m)))
      (total + float_of v)%float (count + 1).
Proof.
  intros Hr Hv Ha.
  rewrite (add_run _ _ _ _ (acc_read _ _ _ _ Hr Ha) Hv).
  unfold acc. simpl. by rewrite lookup_insert_eq.
Qed.

Lemma get_run m total count :
  from_option e_value Averager.default
    (lookup_live (m_world m) (Averager._key self))
  = VPair (VFloat total) (VInt count) ->
  fst (Averager.get self m) = Averager.average (VFloat total) (VInt count).
Proof.
  intros Hread. unfold Averager.get, cache_get. munfold. rewrite Hread.
  simpl. by destruct (Averager.average _ _).
Qed.

Lemma average_zero total : Averager.average (VFloat total) (VInt 0) = Ok (VFloat 0).
Proof. done. Qed.

Lemma average_pos total count :
  0 < count < float_overflow_bound ->
  Averager.average (VFloat total) (VInt count)
  = Ok (VFloat (total / Z2F count)).
Proof.
  intros H. unfold Averager.average. rewrite py_eq_int.
  destruct (count =? 0) eqn:E; [lia|].
  unfold py_truediv. simpl. rewrite int_to_float_small by lia. simpl.
  by rewrite E.
Qed.

Lemma adds_acc calls : forall m t_end total count,
  Forall convertible (snd <$> calls) ->
  kept self calls t_end m = true ->
  acc self m total count ->
  acc self (adds self calls m)
      (fold_left (fun a v => (a + float_of v)%float) (snd <$> calls) total)
      (count + Z.of_nat (length calls))
  /\ retained (adds self calls m) (Averager._key self) t_end = true.
Proof.
  induction calls as [|[t v] rest IH]; intros m t_end total count Hv Hk Ha.
  - simpl in *. by rewrite Z.add_0_r.
  - simpl in Hk. apply andb_prop in Hk as [Hr Hk].
    rewrite fmap_cons in Hv. apply Forall_cons in Hv as [Hv Hvs].
    cbn [adds fmap list_fmap fold_left length snd].
    destruct (IH _ t_end _ _ Hvs Hk (add_acc _ _ _ _ _ Hr Hv Ha)) as [IH1 IH2].
    split; [|done].
    replace (count + Z.of_nat (S (length rest)))
      with (count + 1 + Z.of_nat (length rest)) by lia.
    done.
Qed.

Lemma never_expires_retained m t :
  never_expires (Averager._key self) m -> retained m (Averager._key self) t = true.
Proof.
  unfold never_expires, retained. intros H.
  destruct (w_store (m_world m) !! Averager._key self) as [e|]; [|done].
  unfold live. by rewrite (H e eq_refl).
Qed.

Lemma kept_no_expire calls : forall m t_end total count,
  Averager._expire self = None ->
  Forall convertible (snd <$> calls) ->
  acc self m total count ->
  never_expires (Averager._key self) m ->
  kept self calls t_end m = true.
Proof.
  induction calls as [|[t v] rest IH]; intros m t_end total count He Hv Ha Hn.
  - by apply never_expires_retained.
  - rewrite fmap_cons in Hv. apply Forall_cons in Hv as [Hv Hvs].
    simpl in Hv.
    pose proof (never_expires_retained m t Hn) as Hr.
    cbn [kept]. rewrite Hr. simpl.
    eapply IH; [done|done|by apply add_acc|].
    rewrite (add_run _ _ _ _ (acc_read _ _ _ _ Hr Ha) Hv).
    unfold never_expires. simpl. rewrite lookup_insert_eq.
    intros e [= <-]. simpl. by rewrite He.
Qed.
End averager.

Lemma running_mean_fold vs :
  vs <> [] ->
  running_mean vs
  = (fold_left (fun a v => (a + float_of v)%float) vs 0%float
     / Z2F (Z.of_nat (length vs)))%float.
Proof. by destruct vs. Qed.

(** C7. Averager running mean: after add calls on a fresh key, made one
    after the other at any times, the value read by get is 0.0 when nothing
    was added and otherwise the binary64 sum of the values in call order
    divided by their number, provided no row of the key has expired when a
    later add or the final get is made; that is always so for an Averager
    built without expire.  The values are numbers that convert to a float,
    and so does their count. *)
Theorem averager_running_mean self calls t_end m :
  w_store (m_world m) !! Averager._key self = None ->
  Forall convertible (snd <$> calls) ->
  Z.of_nat (length calls) < float_overflow_bound ->
  Averager._expire self = None \/ kept self calls t_end m = true ->
  mean_after_adds self calls t_end m.
Proof.
  intros Hfresh Hv Hn Hk.
  assert (Ha : acc self m 0%float 0) by (unfold acc; by rewrite Hfresh).
  assert (Hk' : kept self calls t_end m = true).
  { destruct Hk as [He|Hk]; [|done].
    eapply kept_no_expire; [done|done|exact Ha|].
    intros e. by rewrite Hfresh. }
  destruct (adds_acc self calls m t_end _ _ Hv Hk' Ha) as [Hacc Hret].
  unfold mean_after_adds.
  rewrite (get_run self _ _ _ (acc_read self _ _ _ _ Hret Hacc)).
  destruct calls as [|c rest].
  - done.
  - rewrite average_pos by (simpl length in *; lia).
    rewrite running_mean_fold by done.
    rewrite length_fmap. by rewrite Z.add_0_l.
Qed.

(** The examples of the Averager docstring, read at any later time. *)
Lemma averager_running_mean_doctest :
  fst (Averager.get latency
         (at_time 30 (adds latency [(10, VFloat 0.080); (20, VFloat 0.120)]%float boot)))
  = Ok (VFloat 0.1)
  /\ fst (Averager.get latency
            (at_time 40
               (adds latency
                  [(10, VFloat 0.080); (20, VFloat 0.120); (30, VFloat 0.160)]%float
                  boot)))
     = Ok (VFloat 0.12)
  /\ mean_after_adds latency_1s
       [(10, VFloat 0.080); (10.5, VFloat 0.120)]%float 11.25 boot.
Proof.
  split; [|split].
  - etrans.
    + apply averager_running_mean;
        [reflexivity | repeat constructor | by vm_compute | by left].
    + by vm_compute.
  - etrans.
    + apply averager_running_mean;
        [reflexivity | repeat constructor | by vm_compute | by left].
    + by vm_compute.
  - apply averager_running_mean;
      [reflexivity | repeat constructor | by vm_compute | right; by vm_compute].
Defined.

(** With an expiry, a gap between two adds longer than the expiry loses the
    values added before it. *)
Lemma averager_mean_lost_after_expiry :
  ~ (forall self calls t_end m,
       w_store (m_world m) !! Averager._key self = None ->
       Forall convertible (snd <$> calls) ->
       mean_after_adds self calls t_end m).
Proof.
  intros H.
  specialize (H latency_1s [(0, VFloat 0.080); (5, VFloat 0.120)]%float 5%float boot
                eq_refl ltac:(repeat constructor)).
  unfold mean_after_adds in H.
  apply (f_equal (fun r => match r with
                           | Ok (VFloat f) => Prim2SF f
                           | _ => S754_nan
                           end)) in H.
  vm_compute in H. discriminate H.
Qed.

(** ** Averager.pop *)

Lemma pop_machine self m :
  snd (Averager.pop self m)
  = log (EPop (Averager._key self) Averager.default true)
      (with_world (store_delete (Averager._key self) (m_world m)) m).
Proof.
  unfold Averager.pop, cache_pop. munfold.
  destruct (unpack2 _) as [[total count]| |]; simpl; [|done|done].
  by destruct (Averager.average total count).
Qed.

(** C8. Averager pop round-trip: pop returns what get returns on the same
    state (0.0 when nothing is stored), it removes the key, and a get made
    afterwards, at any time, returns 0.0. *)
Theorem averager_pop_round_trip self m :
  fst (Averager.pop self m) = fst (Averager.get self m)
  /\ (stored m (Averager._key self) = None ->
      fst (Averager.pop self m) = Ok (VFloat 0))
  /\ w_store (m_world (snd (Averager.pop self m))) !! Averager._key self = None
  /\ forall t,
       fst (Averager.get self (at_time t (snd (Averager.pop self m))))
       = Ok (VFloat 0).
Proof.
  split; [|split; [|split]].
  - unfold Averager.pop, Averager.get, cache_pop, cache_get. munfold.
    destruct (unpack2 _) as [[total count]| |]; simpl; [|done|done].
    by destruct (Averager.average total count).
  - unfold stored, Averager.pop, cache_pop. munfold.
    by destruct (lookup_live (m_world m) (Averager._key self)).
  - rewrite pop_machine. simpl. apply lookup_delete_eq.
  - intros t. rewrite pop_machine.
    unfold Averager.get, cache_get, lookup_live. munfold. simpl.
    by rewrite lookup_delete_eq.
Qed.

(** ** Sleeping and liveness *)

Lemma lookup_live_Some w key e :
  lookup_live w key = Some e -> w_store w !! key = Some e.
Proof.
  unfold lookup_live. destruct (w_store w !! key) as [e'|]; [|done].
  by destruct (live (w_now w) e').
Qed.

Lemma time_sleep_store d w : w_store (snd (time_sleep d w)) = w_store w.
Proof.
  unfold time_sleep. destruct (as_float d) as [f| |]; simpl; try done.
  destruct (PrimFloat.leb 0 f); [|done].
  by destruct (PrimFloat.eqb f infinity).
Qed.

Lemma sleep_store d m :
  w_store (m_world (snd (sleep d m))) = w_store (m_world m).
Proof.
  unfold sleep, liftU. simpl.
  pose proof (time_sleep_store d (m_world m)) as H.
  by destruct (time_sleep d (m_world m)) as [r w].
Qed.

(** ** Lock *)

Section lock.
Variable L : Lock.t.

(** The rows that stand for a held lock. *)
Variable P : entry -> Prop.
Hypothesis P_new :
  forall w, P (mk_entry w VNone (Lock._expire L) (Lock._tag L)).

Lemma set_status_eq c st f : set_status c st f c = st.
Proof. unfold set_status. by rewrite decide_True. Qed.

Lemma set_status_ne c c' st f : c' <> c -> set_status c st f c' = f c'.
Proof. intros. unfold set_status. by rewrite decide_False. Qed.

Lemma lock_step_inv s a :
  lock_guard L P s a -> lock_inv L P s -> lock_inv L P (lock_step L s a).
Proof.
  destruct s as [m st]. unfold lock_inv, lock_guard, holds. simpl.
  intros Hguard [Hrow Hone].
  destruct a as [c|c|c|c|t]; simpl.
  - (* a caller enters acquire *)
    case_decide as Hc; [|done]. split; simpl.
    + intros c' H. apply (Hrow c').
      destruct (decide (c' = c)) as [->|Hne];
        [by rewrite set_status_eq in H | by rewrite set_status_ne in H].
    + intros c1 c2 H1 H2. apply Hone.
      * destruct (decide (c1 = c)) as [->|Hne];
          [by rewrite set_status_eq in H1 | by rewrite set_status_ne in H1].
      * destruct (decide (c2 = c)) as [->|Hne];
          [by rewrite set_status_eq in H2 | by rewrite set_status_ne in H2].
  - (* a waiting caller calls add *)
    case_decide as Hc; [|done].
    unfold Lock.attempt, cache_add.
    destruct (lookup_live (m_world m) (Lock._key L)) as [e|] eqn:Elive; simpl.
    + done.
    + assert (Hnobody : forall c', st c' <> Holding).
      { intros c' H. destruct (Hrow c' H) as (e & He & HP).
        unfold lookup_live in Elive. rewrite He in Elive.
        by rewrite (Hguard e He HP) in Elive. }
      split; simpl.
      * intros c' _. rewrite lookup_insert_eq. eexists. split; [done|].
        apply P_new.
      * intros c1 c2 H1 H2.
        destruct (decide (c1 = c)) as [->|Hne1];
          [|rewrite set_status_ne in H1 by done; by destruct (Hnobody c1)].
        destruct (decide (c2 = c)) as [->|Hne2];
          [done|rewrite set_status_ne in H2 by done; by destruct (Hnobody c2)].
  - (* a waiting caller sleeps *)
    case_decide as Hc; [|done]. simpl. by rewrite ?sleep_store.
  - (* the holder releases *)
    case_decide as Hc; [|done].
    assert (Hnobody : forall c', set_status c Idle st c' <> Holding).
    { intros c' H. destruct (decide (c' = c)) as [->|Hne].
      - by rewrite set_status_eq in H.
      - rewrite set_status_ne in H by done. by apply Hne, Hone. }
    split; simpl.
    + intros c' H. by destruct (Hnobody c').
    + intros c1 c2 H. by destruct (Hnobody c1).
  - (* time passes *)
    done.
Qed.

Lemma lock_inv_start m : lock_inv L P (lock_start m).
Proof. split; unfold holds; simpl; intros; discriminate. Qed.
End lock.

(** A call of [acquire()] that returns is a run of the system: its calls to
    [add], with a sleep after each one that fails. *)
Lemma lock_acquire_is_a_run L c fuel : forall s m',
  s_status s c = Waiting ->
  Lock.acquire fuel L (s_machine s) = (Ok tt, m') ->
  exists acts,
    Forall (fun a => a = Attempt c \/ a = Nap c) acts
    /\ fold_left (lock_step L) acts s
       = {| s_machine := m'; s_status := set_status c Holding (s_status s) |}.
Proof.
  induction fuel as [|n IH]; intros [m st] m' Hc Hrun; simpl in *; [done|].
  munfold.
  destruct (Lock.attempt L m) as [[[|]|e|] m1] eqn:Hadd; simplify_eq.
  - exists [Attempt c]. split; [repeat constructor|].
    simpl. rewrite decide_True by done. by rewrite Hadd.
  - destruct (sleep (VFloat 0.001) m1) as [[[]|e|] m2] eqn:Hnap; simplify_eq.
    destruct (IH {| s_machine := m2; s_status := st |} m' Hc Hrun)
      as (acts & Hacts & Hfold).
    exists (Attempt c :: Nap c :: acts). split; [by repeat constructor|].
    assert (Hstep1 : lock_step L {| s_machine := m; s_status := st |} (Attempt c)
                     = {| s_machine := m1; s_status := st |}).
    { cbn [lock_step s_machine s_status].
      rewrite decide_True by done. by rewrite Hadd. }
    assert (Hstep2 : lock_step L {| s_machine := m1; s_status := st |} (Nap c)
                     = {| s_machine := m2; s_status := st |}).
    { cbn [lock_step s_machine s_status].
      rewrite decide_True by done. by rewrite Hnap. }
    cbn [fold_left]. by rewrite Hstep1, Hstep2.
Qed.

(** Without an expiry the row of a held lock never expires. *)
Lemma lock_run_inv_no_expiry L acts :
  Lock._expire L = None ->
  forall s,
    lock_inv L (fun e => e_expire_time e = None) s ->
    lock_inv L (fun e => e_expire_time e = None) (fold_left (lock_step L) acts s).
Proof.
  intros He. induction acts as [|a acts IH]; intros s Hs; [done|].
  simpl. apply IH, lock_step_inv; [| |done].
  - intros w. simpl. by rewrite He.
  - destruct a; simpl; try done. intros e _ Hexp. unfold live. by rewrite Hexp.
Qed.

(** With an expiry, as long as the leases are kept. *)
Lemma lock_run_inv_leases L acts : forall s,
  leases_kept L acts s = true ->
  lock_inv L (fun _ => True) s ->
  lock_inv L (fun _ => True) (fold_left (lock_step L) acts s).
Proof.
  induction acts as [|a acts IH]; intros s Hk Hs; [done|].
  simpl in Hk. apply andb_prop in Hk as [Hnow Hk].
  simpl. apply IH; [done|]. apply lock_step_inv; [done| |done].
  destruct a; simpl; try done. intros e He _.
  unfold retained in Hnow. by rewrite He in Hnow.
Qed.

(** C1. Mutual exclusion of Lock: whatever the callers of one Lock do and
    in whatever order their calls to the store are served, two different
    callers are never both between their acquire and their release,
    provided the row of the lock has not expired when add is called; that
    is always so for a Lock built without expire. *)
Theorem lock_mutual_exclusion L acts m c1 c2 :
  Lock._expire L = None \/ leases_kept L acts (lock_start m) = true ->
  c1 <> c2 ->
  holds (lock_run L acts m) c1 ->
  ~ holds (lock_run L acts m) c2.
Proof.
  intros Hk Hne H1 H2. apply Hne.
  destruct Hk as [He|Hk].
  - destruct (lock_run_inv_no_expiry L acts He _
                (lock_inv_start L _ m)) as [_ Hone].
    by apply Hone.
  - destruct (lock_run_inv_leases L acts _ Hk
                (lock_inv_start L _ m)) as [_ Hone].
    by apply Hone.
Qed.

(** Two callers contend for the lock of the docstring: the first to be
    served holds it, the other keeps waiting. *)
Lemma lock_mutual_exclusion_witness :
  ~ holds (lock_run report
             [Call 0; Call 1; Attempt 0; Attempt 1; Nap 1; Tick 9; Attempt 1]%nat
             boot)
      1%nat
  /\ ~ holds (lock_run report_1s
                [Call 0; Call 1; Attempt 0; Tick 0.5; Attempt 1; Release 0;
                 Tick 0.75; Attempt 1; Call 0; Attempt 0]%nat boot)
        0%nat.
Proof.
  split.
  - apply (lock_mutual_exclusion report _ boot 0%nat 1%nat);
      [by left | lia | reflexivity].
  - apply (lock_mutual_exclusion report_1s _ boot 1%nat 0%nat);
      [right; by vm_compute | lia | by vm_compute].
Defined.

(** With an expiry the row of a held lock goes away on its own, and a second
    caller acquires the lock while the first is still inside. *)
Lemma lock_exclusion_lost_after_expiry :
  ~ (forall L acts m c1 c2,
       c1 <> c2 ->
       holds (lock_run L acts m) c1 ->
       ~ holds (lock_run L acts m) c2).
Proof.
  intros H.
  apply (H report_1s [Call 0; Attempt 0; Tick 2; Call 1; Attempt 1]%nat boot 0%nat 1%nat);
    [lia | by vm_compute | by vm_compute].
Qed.

(** ** BoundedSemaphore *)

Section semaphore.
Variable S : BoundedSemaphore.t.
Variable bound : Z.
Hypothesis S_bound : BoundedSemaphore._value S = VInt bound.

#[local] Abbreviation key := (BoundedSemaphore._key S).

Lemma in_bounds_store m m' :
  w_store (m_world m') = w_store (m_world m) ->
  in_bounds bound key m' = in_bounds bound key m.
Proof. unfold in_bounds. by intros ->. Qed.

(** What a transaction reads as [value]: an integer that is at most the
    bound, and not negative unless it is the default. *)
Lemma sem_read m :
  in_bounds bound key m = true ->
  exists a,
    from_option e_value (BoundedSemaphore._value S)
      (lookup_live (m_world m) key) = VInt a
    /\ a <= bound /\ (a < bound -> 0 <= a).
Proof.
  unfold in_bounds. intros H.
  destruct (lookup_live (m_world m) key) as [e|] eqn:E; simpl.
  - apply lookup_live_Some in E. rewrite E in H.
    destruct (e_value e) as [|a| | |]; try discriminate.
    exists a. split; [done|]. lia.
  - exists bound. rewrite S_bound. split; [done|]. lia.
Qed.

Lemma in_bounds_insert m m' w a expire tag :
  0 <= a <= bound ->
  w_store (m_world m') = <[key := mk_entry w (VInt a) expire tag]> (w_store (m_world m)) ->
  in_bounds bound key m' = true.
Proof.
  intros Ha Hs. unfold in_bounds. rewrite Hs, lookup_insert_eq. simpl. lia.
Qed.

Lemma sem_attempt_inv m :
  in_bounds bound key m = true ->
  exists done m', BoundedSemaphore.attempt S m = (Ok done, m')
                  /\ in_bounds bound key m' = true.
Proof.
  intros Hin. destruct (sem_read m Hin) as (a & Hread & Hle & Hge).
  unfold BoundedSemaphore.attempt, transact, cache_get. munfold.
  change (m_world (log EBegin m)) with (m_world m).
  rewrite Hread, py_gt_int.
  destruct (0 <? a) eqn:Epos; simpl.
  - eexists _, _. split; [done|].
    eapply (in_bounds_insert m _ _ (a - 1)); [lia|done].
  - eexists _, _. split; [done|]. by rewrite (in_bounds_store m).
Qed.

Lemma sem_acquire_inv fuel : forall m,
  in_bounds bound key m = true ->
  in_bounds bound key (snd (BoundedSemaphore.acquire fuel S m)) = true.
Proof.
  induction fuel as [|n IH]; intros m Hin; [done|].
  destruct (sem_attempt_inv m Hin) as (done & m' & Hrun & Hin').
  cbn [BoundedSemaphore.acquire]. munfold. rewrite Hrun.
  destruct done; [done|].
  pose proof (sleep_store (VFloat 0.001) m') as Hs.
  destruct (sleep (VFloat 0.001) m') as [[[]|e|] m'']; simpl in *.
  - apply IH. by rewrite (in_bounds_store m').
  - by rewrite (in_bounds_store m').
  - by rewrite (in_bounds_store m').
Qed.

Lemma sem_release_inv m :
  in_bounds bound key m = true ->
  in_bounds bound key (snd (BoundedSemaphore.release S m)) = true.
Proof.
  intros Hin. destruct (sem_read m Hin) as (a & Hread & Hle & Hge).
  unfold BoundedSemaphore.release, transact, cache_get. munfold.
  change (m_world (log EBegin m)) with (m_world m).
  rewrite Hread, S_bound, py_gt_int.
  destruct (a <? bound) eqn:Elt; simpl.
  - eapply (in_bounds_insert m _ _ (a + 1)); [lia|done].
  - by rewrite (in_bounds_store m).
Qed.

Lemma sem_step_inv m c :
  in_bounds bound key m = true -> in_bounds bound key (sem_step S m c) = true.
Proof.
  destruct c as [fuel| |t]; simpl.
  - apply sem_acquire_inv.
  - apply sem_release_inv.
  - done.
Qed.

Lemma sem_run_inv calls : forall m,
  in_bounds bound key m = true -> in_bounds bound key (sem_run S calls m) = true.
Proof.
  induction calls as [|c calls IH]; intros m Hin; [done|].
  apply IH, sem_step_inv, Hin.
Qed.
End semaphore.

Section semaphore_calls.
Variable S : BoundedSemaphore.t.
Variable bound : Z.
Hypothesis S_bound : BoundedSemaphore._value S = VInt bound.

#[local] Abbreviation skey := (BoundedSemaphore._key S).

(** One turn of acquire: it writes [a - 1] exactly when it read [a > 0]. *)
Lemma sem_attempt_spec m a :
  available S m = VInt a ->
  fst (BoundedSemaphore.attempt S m) = Ok (0 <? a)
  /\ row_value (snd (BoundedSemaphore.attempt S m)) skey
     = (if 0 <? a then Some (VInt (a - 1)) else row_value m skey).
Proof.
  unfold available. intros Hread.
  unfold BoundedSemaphore.attempt, transact, cache_get. munfold.
  change (m_world (log EBegin m)) with (m_world m).
  rewrite Hread, py_gt_int.
  destruct (0 <? a); simpl; [|done].
  split; [done|]. unfold row_value. simpl. by rewrite lookup_insert_eq.
Qed.

(** release: it writes [a + 1] exactly when it read [a] below the bound,
    and otherwise fails its assertion and leaves the row alone. *)
Lemma sem_release_spec m a :
  available S m = VInt a ->
  fst (BoundedSemaphore.release S m)
  = (if a <? bound then Ok tt
     else Raise (AssertionError "cannot release un-acquired semaphore"))
  /\ row_value (snd (BoundedSemaphore.release S m)) skey
     = (if a <? bound then Some (VInt (a + 1)) else row_value m skey).
Proof.
  unfold available. intros Hread.
  unfold BoundedSemaphore.release, transact, cache_get. munfold.
  change (m_world (log EBegin m)) with (m_world m).
  rewrite Hread, S_bound, py_gt_int.
  destruct (a <? bound); simpl; [|done].
  split; [done|]. unfold row_value. simpl. by rewrite lookup_insert_eq.
Qed.
End semaphore_calls.

(** C3. BoundedSemaphore bound invariant: starting from the absent key,
    after any calls to acquire and release of a semaphore with bound
    [bound], served in any order and at any times, the value in the row of
    the key lies in [0, bound]; an acquire transaction writes
    [available - 1] only when it read [available > 0], and release writes
    [available + 1] only when it read [available < bound] and otherwise
    fails its assertion without writing. *)
Theorem semaphore_bound_invariant S bound calls m :
  BoundedSemaphore._value S = VInt bound ->
  w_store (m_world m) !! BoundedSemaphore._key S = None ->
  let key := BoundedSemaphore._key S in
  let m' := sem_run S calls m in
  in_bounds bound key m' = true
  /\ exists a,
       available S m' = VInt a
       /\ (0 <= bound -> 0 <= a <= bound)
       /\ fst (BoundedSemaphore.attempt S m') = Ok (0 <? a)
       /\ row_value (snd (BoundedSemaphore.attempt S m')) key
          = (if 0 <? a then Some (VInt (a - 1)) else row_value m' key)
       /\ fst (BoundedSemaphore.release S m')
          = (if a <? bound then Ok tt
             else Raise (AssertionError "cannot release un-acquired semaphore"))
       /\ row_value (snd (BoundedSemaphore.release S m')) key
          = (if a <? bound then Some (VInt (a + 1)) else row_value m' key).
Proof.
  intros HS Hfresh key m'.
  assert (Hin : in_bounds bound key m' = true).
  { apply sem_run_inv; [done|]. unfold in_bounds. by rewrite Hfresh. }
  split; [done|].
  destruct (sem_read S bound HS m' Hin) as (a & Hread & Hle & Hge).
  exists a. split; [done|]. split; [lia|].
  destruct (sem_attempt_spec S m' a Hread) as [? ?].
  destruct (sem_release_spec S bound HS m' a Hread) as [? ?].
  done.
Qed.

(** The semaphore of the docstring: two acquires succeed, a third finds
    nothing available and keeps polling, and only two releases succeed. *)
Lemma semaphore_bound_invariant_witness :
  in_bounds 2 "max-connections"
    (sem_run max_connections
       [SAcquire 3; SAcquire 3; SAcquire 3; SRelease; STick 7; SRelease; SRelease]
       boot) = true.
Proof.
  apply (semaphore_bound_invariant max_connections 2 _ boot);
    reflexivity.
Defined.

(** ** RLock *)

Lemma py_eq_str s v : py_eq (VStr s) v = true <-> v = VStr s.
Proof.
  unfold py_eq. destruct v; simpl; try (split; [discriminate|discriminate]).
  rewrite bool_decide_eq_true. split; congruence.
Qed.

Section rlock.
Variable self : RLock.t.

#[local] Abbreviation rkey := (RLock._key self).
#[local] Abbreviation me := (VStr (RLock._value self)).

(** release when the transaction reads [(owner, depth)]. *)
Lemma rlock_release_run m owner depth :
  held self m = VPair owner (VInt depth) ->
  RLock.release self m =
    if py_eq me owner && (0 <? depth)
    then
      let value := VPair owner (VInt (depth - 1)) in
      (Ok tt,
       log ECommit
         (log (ESet rkey value (RLock._expire self) (RLock._tag self) false)
            (with_world
               (store_insert rkey
                  (mk_entry (m_world m) value (RLock._expire self) (RLock._tag self))
                  (m_world m))
               (log (EGet rkey RLock.default false) (log EBegin m)))))
    else
      (Raise (AssertionError "cannot release un-acquired lock"),
       log ERollback (log (EGet rkey RLock.default false) (log EBegin m))).
Proof.
  unfold held. intros Hread.
  unfold RLock.release, transact, cache_get. munfold.
  change (m_world (log EBegin m)) with (m_world m).
  rewrite Hread. cbn [unpack2].
  destruct (py_eq me owner); cbn [andb].
  - rewrite py_gt_int. destruct (0 <? depth); simpl; [done|].
    unfold log, with_world, with_store. simpl. by destruct m as [[] ?].
  - unfold log, with_world, with_store. simpl. by destruct m as [[] ?].
Qed.

(** acquire's transaction when it reads [(owner, depth)]. *)
Lemma rlock_attempt_run m owner depth :
  held self m = VPair owner (VInt depth) ->
  RLock.attempt self m =
    if py_eq me owner || (depth =? 0)
    then
      let value := VPair me (VInt (depth + 1)) in
      (Ok true,
       log ECommit
         (log (ESet rkey value (RLock._expire self) (RLock._tag self) false)
            (with_world
               (store_insert rkey
                  (mk_entry (m_world m) value (RLock._expire self) (RLock._tag self))
                  (m_world m))
               (log (EGet rkey RLock.default false) (log EBegin m)))))
    else (Ok false, log ECommit (log (EGet rkey RLock.default false) (log EBegin m))).
Proof.
  unfold held. intros Hread.
  unfold RLock.attempt, transact, cache_get. munfold.
  change (m_world (log EBegin m)) with (m_world m).
  rewrite Hread. cbn [unpack2]. rewrite py_eq_int.
  by destruct (py_eq me owner || (depth =? 0)).
Qed.
End rlock.

(** release on a state in which it reads [(owner, depth)] with a depth
    that is not negative. *)
Lemma rlock_release_on_state self m owner depth :
  held self m = VPair owner (VInt depth) ->
  0 <= depth ->
  let key := RLock._key self in
  let r := fst (RLock.release self m) in
  let m' := snd (RLock.release self m) in
  let failure := Raise (AssertionError "cannot release un-acquired lock") in
  (r = failure <-> owner <> VStr (RLock._value self) \/ depth = 0)
  /\ (r = failure ->
      w_store (m_world m') = w_store (m_world m)
      /\ emitted m m' [EBegin; EGet key (VPair VNone (VInt 0)) false; ERollback])
  /\ (r <> failure ->
      r = Ok tt
      /\ row_value m' key = Some (VPair owner (VInt (depth - 1)))
      /\ emitted m m'
           [EBegin; EGet key (VPair VNone (VInt 0)) false;
            ESet key (VPair owner (VInt (depth - 1)))
              (RLock._expire self) (RLock._tag self) false;
            ECommit]).
Proof.
  intros Hread Hdepth key r m' failure. subst r m' failure.
  rewrite (rlock_release_run self m owner depth Hread).
  destruct (py_eq (VStr (RLock._value self)) owner) eqn:Eown; simpl.
  - apply py_eq_str in Eown.
    destruct (0 <? depth) eqn:Epos; simpl.
    + split; [|split].
      * split; [discriminate|]. intros [H|H]; [done|lia].
      * discriminate.
      * intros _. split; [done|]. split.
        -- unfold row_value. simpl. by rewrite lookup_insert_eq.
        -- unfold emitted. simpl. by rewrite <- !app_assoc.
    + split; [|split].
      * split; [|done]. intros _. right. lia.
      * intros _. split; [done|]. unfold emitted. simpl. by rewrite <- !app_assoc.
      * done.
  - split; [|split].
    + split; [|done]. intros _. left. intros H.
      apply py_eq_str in H. by rewrite H in Eown.
    + intros _. split; [done|]. unfold emitted. simpl. by rewrite <- !app_assoc.
    + done.
Qed.

Section rlock_shape.
Variable key : string.

Lemma rlock_shape_store m m' :
  w_store (m_world m') = w_store (m_world m) ->
  rlock_shape key m -> rlock_shape key m'.
Proof. unfold rlock_shape. by intros ->. Qed.

Lemma rlock_shape_held self m :
  RLock._key self = key -> rlock_shape key m ->
  exists owner depth, held self m = VPair owner (VInt depth) /\ 0 <= depth.
Proof.
  unfold rlock_shape, held. intros Hk Hs. rewrite <- Hk in Hs.
  destruct (lookup_live (m_world m) (RLock._key self)) as [e|] eqn:E; simpl.
  - apply lookup_live_Some in E. rewrite E in Hs.
    destruct Hs as (s & d & -> & Hd). by exists (VStr s), d.
  - by exists VNone, 0.
Qed.

Lemma rlock_attempt_shape self m :
  RLock._key self = key -> rlock_shape key m ->
  exists done m', RLock.attempt self m = (Ok done, m') /\ rlock_shape key m'.
Proof.
  intros Hk Hs.
  destruct (rlock_shape_held self m Hk Hs) as (owner & depth & Hread & Hd).
  rewrite (rlock_attempt_run self m owner depth Hread).
  destruct (_ || _).
  - eexists _, _. split; [done|]. unfold rlock_shape. simpl.
    rewrite Hk, lookup_insert_eq. simpl. eexists _, _. split; [done|]. lia.
  - eexists _, _. split; [done|]. by apply (rlock_shape_store m).
Qed.

Lemma rlock_acquire_shape self fuel : forall m,
  RLock._key self = key -> rlock_shape key m ->
  rlock_shape key (snd (RLock.acquire fuel self m)).
Proof.
  induction fuel as [|n IH]; intros m Hk Hs; [done|].
  destruct (rlock_attempt_shape self m Hk Hs) as (done & m' & Hrun & Hs').
  cbn [RLock.acquire]. munfold. rewrite Hrun.
  destruct done; [done|].
  pose proof (sleep_store (VFloat 0.001) m') as Hst.
  destruct (sleep (VFloat 0.001) m') as [[[]|e|] m'']; simpl in *.
  - apply IH; [done|]. by apply (rlock_shape_store m').
  - by apply (rlock_shape_store m').
  - by apply (rlock_shape_store m').
Qed.

Lemma rlock_release_shape self m :
  RLock._key self = key -> rlock_shape key m ->
  rlock_shape key (snd (RLock.release self m)).
Proof.
  intros Hk Hs.
  destruct (rlock_shape_held self m Hk Hs) as (owner & depth & Hread & Hd).
  rewrite (rlock_release_run self m owner depth Hread).
  destruct (py_eq _ owner) eqn:Eown; simpl.
  - apply py_eq_str in Eown. destruct (0 <? depth) eqn:Epos; simpl.
    + unfold rlock_shape. simpl. rewrite Hk, lookup_insert_eq. simpl.
      eexists _, _. rewrite Eown. split; [done|]. lia.
    + by apply (rlock_shape_store m).
  - by apply (rlock_shape_store m).
Qed.

(** Every state that RLock objects on [key] lead to from a fresh key
    stores a pair of a token and a depth that is not negative. *)
Lemma rlock_run_shape calls : forall m,
  Forall (on_key key) calls -> rlock_shape key m ->
  rlock_shape key (rlock_run calls m).
Proof.
  induction calls as [|c calls IH]; intros m Hc Hs; [done|].
  apply Forall_cons in Hc as [Hc Hcs]. apply IH; [done|].
  destruct c as [self fuel|self|t]; simpl in *.
  - by apply rlock_acquire_shape.
  - by apply rlock_release_shape.
  - done.
Qed.
End rlock_shape.

(** What release reads after any calls through RLock objects on a fresh
    key: a pair of an owner and a depth that is not negative. *)
Lemma rlock_held_after_calls self calls m :
  w_store (m_world m) !! RLock._key self = None ->
  Forall (on_key (RLock._key self)) calls ->
  exists owner depth,
    held self (rlock_run calls m) = VPair owner (VInt depth) /\ 0 <= depth.
Proof.
  intros Hfresh Hcalls. apply (rlock_shape_held (RLock._key self)); [done|].
  apply rlock_run_shape; [done|]. unfold rlock_shape. by rewrite Hfresh.
Qed.

(** C2. RLock.release, called after any calls through RLock objects on a
    fresh key: it opens a transaction and reads (owner, depth), (None, 0)
    when the key is absent; it fails with the assertion error "cannot
    release un-acquired lock" exactly when the owner is not the token of
    the object or the depth is 0, and then the stored state is unchanged
    and the transaction is rolled back; otherwise it writes
    (owner, depth - 1) and commits. *)
Theorem rlock_release_spec self calls m :
  w_store (m_world m) !! RLock._key self = None ->
  Forall (on_key (RLock._key self)) calls ->
  let key := RLock._key self in
  let before := rlock_run calls m in
  let r := fst (RLock.release self before) in
  let after := snd (RLock.release self before) in
  let failure := Raise (AssertionError "cannot release un-acquired lock") in
  exists owner depth,
    held self before = VPair owner (VInt depth)
    /\ (r = failure <-> owner <> VStr (RLock._value self) \/ depth = 0)
    /\ (r = failure ->
        w_store (m_world after) = w_store (m_world before)
        /\ emitted before after
             [EBegin; EGet key (VPair VNone (VInt 0)) false; ERollback])
    /\ (r <> failure ->
        r = Ok tt
        /\ row_value after key = Some (VPair owner (VInt (depth - 1)))
        /\ emitted before after
             [EBegin; EGet key (VPair VNone (VInt 0)) false;
              ESet key (VPair owner (VInt (depth - 1)))
                (RLock._expire self) (RLock._tag self) false;
              ECommit]).
Proof.
  intros Hfresh Hcalls key before r after failure.
  destruct (rlock_held_after_calls self calls m Hfresh Hcalls)
    as (owner & depth & Hheld & Hdepth).
  exists owner, depth. split; [done|].
  apply (rlock_release_on_state self before owner depth Hheld Hdepth).
Qed.

(** The docstring of RLock: two acquires, a release, a [with] block and a
    release bring the depth back to 0, and one more release fails. *)
Lemma rlock_release_spec_witness :
  fst (RLock.release user_123
         (rlock_run
            [RAcquire user_123 3; RAcquire user_123 3; RRelease user_123;
             RAcquire user_123 3; RRelease user_123; RRelease user_123]
            boot))
  = Raise (AssertionError "cannot release un-acquired lock").
Proof.
  destruct (rlock_release_spec user_123
              [RAcquire user_123 3; RAcquire user_123 3; RRelease user_123;
               RAcquire user_123 3; RRelease user_123; RRelease user_123]
              boot eq_refl ltac:(repeat constructor))
    as (owner & depth & Hheld & Hiff & _).
  apply Hiff. right. vm_compute in Hheld. congruence.
Defined.

(** ** Independence of the calling thread *)

Lemma ident_free_ret {A} (a : A) : ident_free (mret a : M A).
Proof. by intros pid tid m. Qed.

Lemma ident_free_liftR {A} (r : result A) : ident_free (liftR r).
Proof. by intros pid tid m. Qed.

Lemma ident_free_bind {A B} (c : M A) (f : A -> M B) :
  ident_free c -> (forall a, ident_free (f a)) -> ident_free (c ≫= f).
Proof.
  intros Hc Hf pid tid m. unfold mbind, M_bind. rewrite Hc.
  destruct (c m) as [[a|e|] m']; simpl; [apply Hf|done|done].
Qed.

Lemma ident_free_cache_get key default retry :
  ident_free (cache_get key default retry).
Proof. by intros pid tid m. Qed.

Lemma ident_free_cache_set key value expire tag retry :
  ident_free (cache_set key value expire tag retry).
Proof. by intros pid tid m. Qed.

Lemma ident_free_sleep d : ident_free (sleep d).
Proof.
  intros pid tid m. unfold sleep, liftU, time_sleep. simpl.
  destruct (as_float d) as [f| |]; [|done|done].
  destruct (PrimFloat.leb 0 f); [|done].
  by destruct (PrimFloat.eqb f infinity).
Qed.

Lemma ident_free_transact {A} (body : M A) :
  ident_free body -> ident_free (transact body).
Proof.
  intros Hb pid tid m. unfold transact.
  change (log EBegin (as_thread pid tid m)) with (as_thread pid tid (log EBegin m)).
  rewrite Hb. by destruct (body (log EBegin m)) as [[a|e|] m'].
Qed.

Create HintDb ident_free.
#[local] Hint Resolve ident_free_ret ident_free_liftR ident_free_cache_get
  ident_free_cache_set ident_free_sleep : ident_free.

Lemma ident_free_rlock_attempt self : ident_free (RLock.attempt self).
Proof.
  unfold RLock.attempt. apply ident_free_transact.
  apply ident_free_bind; [auto with ident_free|]. intros v.
  apply ident_free_bind; [auto with ident_free|]. intros [value count].
  destruct (_ || _); [|auto with ident_free].
  apply ident_free_bind; [auto with ident_free|]. intros count'.
  apply ident_free_bind; auto with ident_free.
Qed.

Lemma ident_free_rlock_acquire self fuel : ident_free (RLock.acquire fuel self).
Proof.
  induction fuel as [|n IH]; [by intros pid tid m|].
  cbn [RLock.acquire].
  apply ident_free_bind; [apply ident_free_rlock_attempt|]. intros [|].
  - auto with ident_free.
  - apply ident_free_bind; auto with ident_free.
Qed.

Lemma ident_free_rlock_release self : ident_free (RLock.release self).
Proof.
  unfold RLock.release. apply ident_free_transact.
  apply ident_free_bind; [auto with ident_free|]. intros v.
  apply ident_free_bind; [auto with ident_free|]. intros [value count].
  apply ident_free_bind.
  - destruct (py_eq _ value); auto with ident_free.
  - intros [|]; [|intros pid tid m; reflexivity].
    apply ident_free_bind; [auto with ident_free|]. intros count'.
    apply ident_free_bind; auto with ident_free.
Qed.

(** C10. The owner token of an RLock is computed once, by the constructor,
    from the process and thread that construct the object.  acquire and
    release use that token whoever calls them: they do the same in every
    thread, so a call made from another thread through the same object
    reenters a lock the object holds and can release it. *)
Theorem rlock_owner_is_constructor key expire tag pid tid m0 self
    pid' tid' m depth fuel :
  fst (RLock.__init__ key expire tag (as_thread pid tid m0)) = Ok self ->
  held self m = VPair (VStr (RLock.token pid tid)) (VInt depth) ->
  0 < depth ->
  let other := as_thread pid' tid' m in
  RLock._value self = RLock.token pid tid
  /\ (forall n, ident_free (RLock.acquire n self))
  /\ ident_free (RLock.release self)
  /\ fst (RLock.acquire (S fuel) self other) = Ok tt
  /\ row_value (snd (RLock.acquire (S fuel) self other)) key
     = Some (VPair (VStr (RLock.token pid tid)) (VInt (depth + 1)))
  /\ fst (RLock.release self other) = Ok tt
  /\ row_value (snd (RLock.release self other)) key
     = Some (VPair (VStr (RLock.token pid tid)) (VInt (depth - 1))).
Proof.
  intros Hinit Hheld Hdepth other.
  injection Hinit as <-. cbn [RLock._value RLock._key] in *.
  set (self := {| RLock._key := key |}) in *.
  assert (Hother : held self other = VPair (VStr (RLock.token pid tid)) (VInt depth))
    by exact Hheld.
  assert (Hme : py_eq (VStr (RLock._value self)) (VStr (RLock.token pid tid)) = true)
    by (by apply py_eq_str).
  split; [done|].
  split; [intros n; apply ident_free_rlock_acquire|].
  split; [apply ident_free_rlock_release|].
  assert (Hacq : RLock.acquire (S fuel) self other
                 = (Ok tt, snd (RLock.attempt self other))
                   /\ row_value (snd (RLock.attempt self other)) key
                      = Some (VPair (VStr (RLock.token pid tid)) (VInt (depth + 1)))).
  { cbn [RLock.acquire]. munfold.
    rewrite (rlock_attempt_run self other _ _ Hother), Hme. simpl.
    split; [done|]. unfold row_value. simpl. by rewrite lookup_insert_eq. }
  destruct Hacq as [-> Hrow]. split; [done|]. split; [done|].
  rewrite (rlock_release_run self other _ _ Hother), Hme.
  assert ((0 <? depth) = true) as -> by lia. simpl.
  split; [done|]. unfold row_value. simpl. by rewrite lookup_insert_eq.
Qed.

(** The object of the docstring is built by thread 1, which acquires it;
    thread 2 then acquires and releases through the same object. *)
Lemma rlock_owner_is_constructor_witness :
  fst (RLock.acquire 1 user_123
         (as_thread 4242 2 (rlock_run [RAcquire user_123 1] boot))) = Ok tt
  /\ fst (RLock.release user_123
            (as_thread 4242 2 (rlock_run [RAcquire user_123 1] boot))) = Ok tt.
Proof.
  pose proof (rlock_owner_is_constructor "user-123" None None 4242 1 boot user_123
                4242 2 (rlock_run [RAcquire user_123 1] boot) 1 0
                eq_refl eq_refl ltac:(lia)) as H.
  split; apply H.
Defined.

(** ** throttle *)

Lemma invocations_log e m :
  invocations (log e m) = (invocations m + (if is_invoke e then 1 else 0))%nat.
Proof.
  unfold invocations, log. simpl. rewrite List.filter_app, length_app. simpl.
  by destruct (is_invoke e).
Qed.

Lemma invocations_with_world w m : invocations (with_world w m) = invocations m.
Proof. done. Qed.

Section throttle.
Variable th : throttle.t.
Variable cl : throttle.closure.

#[local] Abbreviation tkey := (throttle.key cl).

Lemma stored_read m v :
  stored m tkey = Some v ->
  from_option e_value VNone (lookup_live (m_world m) tkey) = v.
Proof.
  unfold stored. destruct (lookup_live (m_world m) tkey); simpl; congruence.
Qed.

Section turn.
Variables (m : machine) (last tally now tally' : pyval) (w : world).
Hypothesis Hstored : stored m tkey = Some (VPair last tally).
Hypothesis Htime : throttle.time_func th (m_world m) = (Ok now, w).
Hypothesis Haccrue : accrue cl last tally now = Ok tally'.




End turn.
End throttle.

Section throttle_calls.
Variable th : throttle.t.
Variable cl : throttle.closure.
Variable func : pyfunc.
Variable args : list pyval.






End throttle_calls.



(** C9. A throttled call reads its key without a default: when no live row
    is under the key, the read yields None, unpacking it into (last, tally)
    raises TypeError, and the call ends there; the bucket is not set up
    again, nothing is written and the function is not called. *)
Theorem throttle_absent_key_fails th cl func args fuel m :
  stored m (throttle.key cl) = None ->
  let call := throttle.wrapper (Datatypes.S fuel) th cl func args m in
  fst call = Raise TypeError
  /\ w_store (m_world (snd call)) = w_store (m_world m)
  /\ emitted m (snd call) [EBegin; EGet (throttle.key cl) VNone true; ERollback]
  /\ invocations (snd call) = invocations m.
Proof.
  intros Habsent call. subst call. unfold stored in Habsent.
  unfold throttle.wrapper. cbn [throttle.wait].
  unfold transact, throttle.bucket_step, cache_get. munfold.
  change (m_world (log EBegin m)) with (m_world m).
  destruct (lookup_live (m_world m) (throttle.key cl)) as [e|]; [done|].
  simpl. split; [done|]. split; [done|]. split.
  - unfold emitted. simpl. by rewrite <- !app_assoc.
  - unfold invocations. simpl. rewrite !List.filter_app, !length_app. simpl. lia.
Qed.

(** A throttle made with a one-second expiry and first called two seconds
    later: its row has expired. *)
Lemma throttle_absent_key_fails_witness :
  fst (throttle.wrapper 1 short_lived calls_closure clock_reading []
         (at_time 2 (decorated short_lived)))
  = Raise TypeError.
Proof.
  apply (throttle_absent_key_fails short_lived calls_closure clock_reading [] 0
           (at_time 2 (decorated short_lived))).
  reflexivity.
Defined.

(** ** Tags *)

Ltac run_all :=
  munfold; repeat case_match; simplify_eq/=.

Ltac new_events :=
  unfold tags_written, log, with_world; simpl;
  rewrite <- ?app_assoc; rewrite ?drop_app_length, ?drop_all; simpl;
  repeat constructor.

(** Every other write of the recipes hands the tag of its object to the
    store. *)
Lemma writes_carry_tag :
  (forall self v m,
     Forall (eq (Averager._tag self)) (tags_written m (snd (Averager.add self v m))))
  /\ (forall self m,
        Forall (eq (Lock._tag self)) (tags_written m (snd (Lock.attempt self m))))
  /\ (forall self m,
        Forall (eq (RLock._tag self)) (tags_written m (snd (RLock.attempt self m))))
  /\ (forall self m,
        Forall (eq (RLock._tag self)) (tags_written m (snd (RLock.release self m))))
  /\ (forall self m,
        Forall (eq (BoundedSemaphore._tag self))
          (tags_written m (snd (BoundedSemaphore.attempt self m))))
  /\ (forall self m,
        Forall (eq (BoundedSemaphore._tag self))
          (tags_written m (snd (BoundedSemaphore.release self m))))
  /\ (forall th func m,
        Forall (eq (throttle.tag th))
          (tags_written m (snd (throttle.decorator th func m)))).
Proof.
  repeat split; intros.
  - unfold Averager.add, transact, cache_get, cache_set. run_all; new_events.
  - unfold Lock.attempt, cache_add. run_all; new_events.
  - unfold RLock.attempt, transact, cache_get, cache_set. run_all; new_events.
  - unfold RLock.release, transact, cache_get, cache_set. run_all; new_events.
  - unfold BoundedSemaphore.attempt, transact, cache_get, cache_set.
    run_all; new_events.
  - unfold BoundedSemaphore.release, transact, cache_get, cache_set.
    run_all; new_events.
  - unfold throttle.decorator, cache_set. run_all; new_events.
Qed.

(** C5. The writes of a throttled call do not carry the tag: whatever the
    tag of the throttle, a turn of the loop hands no tag to the store.  For
    the throttle tagged "limits", [decorator] stores the first state under
    the tag and the call that follows stores the next state under no tag,
    which leaves the row untagged. *)
Theorem throttle_update_drops_tag :
  (forall th cl m,
     Forall (eq None)
       (tags_written m (snd (transact (throttle.bucket_step th cl) m))))
  /\ throttle.decorator tagged clock_reading boot = (Ok calls_closure, decorated tagged)
  /\ tags_written boot
       (snd (throttle.wrapper 1 tagged calls_closure clock_reading []
               (decorated tagged)))
     = [Some "limits"; None]
  /\ e_tag <$> w_store (m_world (decorated tagged)) !! "calls" = Some (Some "limits")
  /\ e_tag <$> w_store (m_world (snd (throttle.wrapper 1 tagged calls_closure
                                        clock_reading [] (decorated tagged))))
               !! "calls"
     = Some None.
Proof.
  split; [|by vm_compute].
  intros. unfold transact, throttle.bucket_step, cache_get, cache_set.
  run_all; new_events.
Qed.

(** ** Construction *)

Lemma no_write_ret {A} (a : A) : no_write (mret a : M A).
Proof.
  intros m. split; [done|]. exists []. split; [|done].
  unfold emitted. simpl. by rewrite app_nil_r.
Qed.

Lemma no_write_rlock_init key expire tag : no_write (RLock.__init__ key expire tag).
Proof.
  intros m. split; [done|]. exists []. split; [|done].
  unfold emitted. simpl. by rewrite app_nil_r.
Qed.

(** Not every constructor leaves the store alone: decorating a function
    with throttle writes the full bucket. *)
Lemma throttle_decorator_writes :
  ~ (forall th func, no_write (throttle.decorator th func)).
Proof.
  intros H. destruct (H once_a_second clock_reading boot) as [Hstore _].
  apply (f_equal (fun s => bool_decide (is_Some (s !! "__main__.clock_reading")))) in Hstore.
  vm_compute in Hstore. discriminate Hstore.
Qed.

Lemma throttle_decorator_run th func m cl m' :
  throttle.decorator th func m = (Ok cl, m') ->
  exists now w,
    throttle.time_func th (m_world m) = (Ok now, w)
    /\ throttle.key cl = default (throttle.default_key func) (throttle.name th)
    /\ emitted m m'
         [ESet (throttle.key cl) (VPair now (throttle.count th))
            (throttle.expire th) (throttle.tag th) true]
    /\ row_value m' (throttle.key cl) = Some (VPair now (throttle.count th)).
Proof.
  unfold throttle.decorator, cache_set. munfold.
  destruct (py_float (throttle.seconds th)) as [fs| |]; [|done|done].
  destruct (py_truediv (throttle.count th) fs) as [rate| |]; [|done|done].
  destruct (throttle.time_func th (m_world m)) as [[now|e|] w]; [|done|done].
  simpl. intros [= <- <-]. exists now, w. simpl.
  split; [done|]. split; [done|]. split; [done|].
  unfold row_value. simpl. by rewrite lookup_insert_eq.
Qed.

(** The state of the other recipes comes to be with the first call. *)
Lemma first_call_creates_state :
  (forall self v m,
     stored m (Averager._key self) = None -> convertible v ->
     row_value (snd (Averager.add self v m)) (Averager._key self)
     = Some (VPair (VFloat (0 + float_of v)) (VInt 1)))
  /\ (forall self m,
        stored m (Lock._key self) = None ->
        row_value (snd (Lock.attempt self m)) (Lock._key self) = Some VNone)
  /\ (forall self m,
        stored m (RLock._key self) = None ->
        row_value (snd (RLock.attempt self m)) (RLock._key self)
        = Some (VPair (VStr (RLock._value self)) (VInt 1)))
  /\ (forall self bound m,
        stored m (BoundedSemaphore._key self) = None ->
        BoundedSemaphore._value self = VInt bound -> 0 < bound ->
        row_value (snd (BoundedSemaphore.attempt self m)) (BoundedSemaphore._key self)
        = Some (VInt (bound - 1))).
Proof.
  unfold stored. repeat split.
  - intros self v m Hfresh Hv.
    rewrite (add_run self m v 0%float 0); [|by destruct (lookup_live _ _)|done].
    unfold row_value. simpl. by rewrite lookup_insert_eq.
  - intros self m Hfresh. unfold Lock.attempt, cache_add.
    destruct (lookup_live _ _); [done|].
    unfold row_value. simpl. by rewrite lookup_insert_eq.
  - intros self m Hfresh.
    rewrite (rlock_attempt_run self m VNone 0);
      [|unfold held; by destruct (lookup_live _ _)].
    rewrite orb_true_r. unfold row_value. simpl. by rewrite lookup_insert_eq.
  - intros self bound m Hfresh Hbound Hpos.
    destruct (sem_attempt_spec self m bound) as [_ Hrow].
    + unfold available. rewrite Hbound. by destruct (lookup_live _ _).
    + rewrite Hrow. by assert ((0 <? bound) = true) as -> by lia.
Qed.

(** C6. Construction and the store: building an Averager, a Lock, an RLock
    or a BoundedSemaphore, or decorating a function with a barrier over
    one of these locks, writes nothing to the store, so the state of these
    comes to be with their first add or acquire; decorating a function with
    throttle does write: it stores the full bucket (now, count) under the
    key, with the expire and the tag of the throttle. *)
Theorem construction_writes_only_for_throttle :
  (forall key expire tag, no_write (Averager.__init__ key expire tag))
  /\ (forall key expire tag, no_write (Lock.__init__ key expire tag))
  /\ (forall key expire tag, no_write (RLock.__init__ key expire tag))
  /\ (forall key value expire tag,
        no_write (BoundedSemaphore.__init__ key value expire tag))
  /\ (forall name expire tag func,
        no_write (barrier.decorator (L := Lock.t) name expire tag func))
  /\ (forall name expire tag func,
        no_write (barrier.decorator (L := RLock.t) name expire tag func))
  /\ (forall name expire tag func,
        no_write (barrier.decorator (L := BoundedSemaphore.t) name expire tag func))
  /\ (forall self v m,
        stored m (Averager._key self) = None -> convertible v ->
        row_value (snd (Averager.add self v m)) (Averager._key self)
        = Some (VPair (VFloat (0 + float_of v)) (VInt 1)))
  /\ (forall self m,
        stored m (Lock._key self) = None ->
        row_value (snd (Lock.attempt self m)) (Lock._key self) = Some VNone)
  /\ (forall self m,
        stored m (RLock._key self) = None ->
        row_value (snd (RLock.attempt self m)) (RLock._key self)
        = Some (VPair (VStr (RLock._value self)) (VInt 1)))
  /\ (forall self bound m,
        stored m (BoundedSemaphore._key self) = None ->
        BoundedSemaphore._value self = VInt bound -> 0 < bound ->
        row_value (snd (BoundedSemaphore.attempt self m)) (BoundedSemaphore._key self)
        = Some (VInt (bound - 1)))
  /\ (forall th func m cl m',
        throttle.decorator th func m = (Ok cl, m') ->
        exists now w,
          throttle.time_func th (m_world m) = (Ok now, w)
          /\ throttle.key cl = default (throttle.default_key func) (throttle.name th)
          /\ emitted m m'
               [ESet (throttle.key cl) (VPair now (throttle.count th))
                  (throttle.expire th) (throttle.tag th) true]
          /\ row_value m' (throttle.key cl) = Some (VPair now (throttle.count th))).
Proof.
  destruct first_call_creates_state as (Have & Hlock & Hrlock & Hsem).
  repeat split;
    try (intros; first [apply no_write_ret | apply no_write_rlock_init]).
  - apply Have.
  - apply Hlock.
  - apply Hrlock.
  - apply Hsem.
  - apply throttle_decorator_run.
Qed.

(** * More properties of the recipes *)

(** ** Sleeping a millisecond *)

Lemma sleep_ms m :
  sleep (VFloat 0.001) m
  = (Ok tt,
     with_world (with_now (w_now (m_world m) + 0.001)%float (m_world m))
       (log (ESleep (VFloat 0.001)) m)).
Proof. reflexivity. Qed.

Lemma lookup_live_permanent m key e :
  w_store (m_world m) !! key = Some e ->
  e_expire_time e = None ->
  lookup_live (m_world m) key = Some e.
Proof. intros He Hexp. unfold lookup_live, live. by rewrite He, Hexp. Qed.

(** ** Lock: acquire and release *)

Lemma lock_acquire_free self fuel m :
  stored m (Lock._key self) = None ->
  Lock.acquire (S fuel) self m
  = (Ok tt,
     log (EAdd (Lock._key self) VNone (Lock._expire self) (Lock._tag self) true)
       (with_world
          (store_insert (Lock._key self)
             (mk_entry (m_world m) VNone (Lock._expire self) (Lock._tag self))
             (m_world m))
          m)).
Proof.
  unfold stored. intros Hfree. cbn [Lock.acquire].
  unfold Lock.attempt, cache_add. munfold.
  by destruct (lookup_live (m_world m) (Lock._key self)).
Qed.

Lemma lock_acquire_held self fuel : forall m e,
  w_store (m_world m) !! Lock._key self = Some e ->
  e_expire_time e = None ->
  fst (Lock.acquire fuel self m) = Spin
  /\ w_store (m_world (snd (Lock.acquire fuel self m))) = w_store (m_world m)
  /\ emitted m (snd (Lock.acquire fuel self m))
       (turns fuel
          [EAdd (Lock._key self) VNone (Lock._expire self) (Lock._tag self) true;
           ESleep (VFloat 0.001)]).
Proof.
  induction fuel as [|n IH]; intros m e He Hexp.
  - repeat split; try done. unfold emitted. simpl. by rewrite app_nil_r.
  - cbn [Lock.acquire]. unfold Lock.attempt, cache_add. munfold.
    rewrite (lookup_live_permanent m _ e He Hexp), sleep_ms.
    set (m1 := with_world _ _).
    destruct (IH m1 e He Hexp) as (Hspin & Hstore & Htrace).
    destruct (Lock.acquire n self m1) as [r m2]. simpl in *. subst r.
    repeat split; [done|].
    unfold emitted in *. rewrite Htrace. unfold turns. simpl.
    by rewrite <- !app_assoc.
Qed.

(** X1. release never checks who holds the lock: after one caller has
    acquired a free lock, a release through any Lock object on the same key
    removes the row, and the next acquire succeeds at once, although the
    first caller has not released. *)
Theorem lock_release_frees_for_anyone self other fuel m :
  Lock._key other = Lock._key self ->
  stored m (Lock._key self) = None ->
  let held_by_self := snd (Lock.acquire (S fuel) self m) in
  let freed := snd (Lock.release other held_by_self) in
  fst (Lock.acquire (S fuel) self m) = Ok tt
  /\ row_value held_by_self (Lock._key self) = Some VNone
  /\ fst (Lock.release other held_by_self) = Ok tt
  /\ w_store (m_world freed) !! Lock._key self = None
  /\ fst (Lock.acquire (S fuel) other freed) = Ok tt.
Proof.
  intros Hkey Hfree held_by_self freed. subst held_by_self freed.
  rewrite (lock_acquire_free self fuel m Hfree).
  cbn [fst snd]. split; [done|].
  split.
  { unfold row_value. simpl. by rewrite lookup_insert_eq. }
  unfold Lock.release, cache_delete. munfold. cbn [fst snd].
  split; [done|].
  split.
  { simpl. rewrite Hkey. apply lookup_delete_eq. }
  rewrite lock_acquire_free; [done|].
  unfold stored, lookup_live. simpl. rewrite Hkey. by rewrite lookup_delete_eq.
Qed.

(** One caller holds the lock of the docstring; a second Lock object on the
    key releases it and acquires it. *)
Lemma lock_release_frees_for_anyone_witness :
  fst (Lock.acquire 1 report_again
         (snd (Lock.release report_again (snd (Lock.acquire 1 report boot)))))
  = Ok tt.
Proof.
  apply (lock_release_frees_for_anyone report report_again 0 boot);
    reflexivity.
Defined.

(** X2. A Lock is not reentrant: once a Lock without expire has been
    acquired, a further acquire on the key, by the holder or by anyone else,
    does not return however many turns its loop makes; every turn makes one
    add and one sleep of a millisecond, and no row changes. *)
Theorem lock_acquire_blocks_while_held self other fuel n m :
  Lock._key other = Lock._key self ->
  Lock._expire self = None ->
  stored m (Lock._key self) = None ->
  let inside := snd (Lock.acquire (S fuel) self m) in
  fst (Lock.acquire n other inside) = Spin
  /\ w_store (m_world (snd (Lock.acquire n other inside))) = w_store (m_world inside)
  /\ emitted inside (snd (Lock.acquire n other inside))
       (turns n
          [EAdd (Lock._key other) VNone (Lock._expire other) (Lock._tag other) true;
           ESleep (VFloat 0.001)]).
Proof.
  intros Hkey Hexp Hfree inside. subst inside.
  rewrite (lock_acquire_free self fuel m Hfree). cbn [snd].
  eapply lock_acquire_held.
  - simpl. rewrite Hkey. apply lookup_insert_eq.
  - simpl. by rewrite Hexp.
Qed.

(** The holder of the lock of the docstring calls acquire again. *)
Lemma lock_acquire_blocks_while_held_witness :
  fst (Lock.acquire 5 report (snd (Lock.acquire 1 report boot))) = Spin.
Proof.
  apply (lock_acquire_blocks_while_held report report 0 5 boot);
    reflexivity.
Defined.

(** X3. A [with lock:] block on a free key: entering stores None under the
    key with the expire and the tag of the lock, in a single add; leaving
    deletes the row, so that the rows are those from before without the key. *)
Theorem lock_enter_exit_round_trip self fuel m :
  stored m (Lock._key self) = None ->
  let inside := snd (Lock.__enter__ (S fuel) self m) in
  let after := snd (Lock.__exit__ self inside) in
  fst (Lock.__enter__ (S fuel) self m) = Ok tt
  /\ w_store (m_world inside) !! Lock._key self
     = Some (mk_entry (m_world m) VNone (Lock._expire self) (Lock._tag self))
  /\ fst (Lock.__exit__ self inside) = Ok tt
  /\ w_store (m_world after) = delete (Lock._key self) (w_store (m_world m))
  /\ emitted m after
       [EAdd (Lock._key self) VNone (Lock._expire self) (Lock._tag self) true;
        EDelete (Lock._key self) true].
Proof.
  intros Hfree inside after. subst inside after.
  unfold Lock.__enter__, Lock.__exit__.
  rewrite (lock_acquire_free self fuel m Hfree). cbn [fst snd].
  split; [done|].
  split; [simpl; apply lookup_insert_eq|].
  unfold Lock.release, cache_delete. munfold. cbn [fst snd].
  split; [done|].
  split.
  - simpl. apply delete_insert_eq.
  - unfold emitted. simpl. by rewrite <- app_assoc.
Qed.

(** The [with lock: pass] of the docstring. *)
Lemma lock_enter_exit_round_trip_witness :
  w_store (m_world (snd (Lock.__exit__ report (snd (Lock.__enter__ 1 report boot)))))
  = delete "report-123" (w_store (m_world boot)).
Proof.
  apply (lock_enter_exit_round_trip report 0 boot). reflexivity.
Defined.

(** ** Calls in a row *)

Lemma repeat_call_app a b c m :
  repeat_call (a + b) c m = (repeat_call a c;; repeat_call b c) m.
Proof.
  revert m. induction a as [|a IH]; intros m; simpl.
  - munfold. by destruct (repeat_call b c m) as [[[]|e|] m'].
  - munfold. destruct (c m) as [[[]|e|] m1]; [|done|done].
    rewrite IH. munfold. done.
Qed.

Lemma repeat_call_raises k c m e :
  fst (c m) = Raise e -> fst (repeat_call (S k) c m) = Raise e.
Proof.
  intros H. simpl. munfold. destruct (c m) as [[[]|e'|] m1]; simpl in *; congruence.
Qed.

Lemma outlives_live w value expire tag :
  live (w_now w) (mk_entry w value expire tag) = outlives w expire.
Proof. done. Qed.

Lemma outlives_now w w' expire :
  w_now w' = w_now w -> outlives w' expire = outlives w expire.
Proof. unfold outlives, live, mk_entry. simpl. by intros ->. Qed.

(** ** RLock: depth and owners *)

Section rlock_depth.
Variable self : RLock.t.

#[local] Abbreviation token := (VStr (RLock._value self)).

Lemma rlock_wrote_held m value :
  outlives (m_world m) (RLock._expire self) = true ->
  held self (rlock_wrote self m value) = value
  /\ w_now (m_world (rlock_wrote self m value)) = w_now (m_world m).
Proof.
  intros Hlive. split; [|done].
  unfold held, lookup_live, rlock_wrote. simpl.
  rewrite lookup_insert_eq, outlives_live, Hlive. done.
Qed.

Lemma rlock_acquire_now fuel m owner depth :
  held self m = VPair owner (VInt depth) ->
  py_eq token owner || (depth =? 0) = true ->
  RLock.acquire (S fuel) self m
  = (Ok tt, rlock_wrote self m (VPair token (VInt (depth + 1)))).
Proof.
  intros Hheld Hmay. cbn [RLock.acquire]. munfold.
  by rewrite (rlock_attempt_run self m owner depth Hheld), Hmay.
Qed.

Lemma rlock_release_now m depth :
  held self m = VPair token (VInt depth) ->
  0 < depth ->
  RLock.release self m
  = (Ok tt, rlock_wrote self m (VPair token (VInt (depth - 1)))).
Proof.
  intros Hheld Hpos.
  rewrite (rlock_release_run self m token depth Hheld).
  assert (py_eq token token = true) as -> by (by apply py_eq_str).
  by assert ((0 <? depth) = true) as -> by lia.
Qed.

Lemma rlock_acquires fuel k : forall m owner depth,
  held self m = VPair owner (VInt depth) ->
  py_eq token owner || (depth =? 0) = true ->
  outlives (m_world m) (RLock._expire self) = true ->
  let run := repeat_call (S k) (RLock.acquire (S fuel) self) m in
  fst run = Ok tt
  /\ held self (snd run) = VPair token (VInt (depth + Z.of_nat (S k)))
  /\ w_now (m_world (snd run)) = w_now (m_world m).
Proof.
  induction k as [|k IH]; intros m owner depth Hheld Hmay Hlive run; subst run.
  - cbn [repeat_call]. munfold.
    rewrite (rlock_acquire_now fuel m owner depth Hheld Hmay). cbn [fst snd].
    destruct (rlock_wrote_held m (VPair token (VInt (depth + 1))) Hlive) as [H1 H2].
    by rewrite H1, H2.
  - change (repeat_call (S (S k)) ?c) with (c;; repeat_call (S k) c). munfold.
    rewrite (rlock_acquire_now fuel m owner depth Hheld Hmay).
    destruct (rlock_wrote_held m (VPair token (VInt (depth + 1))) Hlive) as [H1 H2].
    destruct (IH (rlock_wrote self m (VPair token (VInt (depth + 1))))
                token (depth + 1) H1) as (Hok & Hheld' & Hnow).
    + assert (py_eq token token = true) as -> by (by apply py_eq_str). done.
    + unfold outlives in *. by rewrite H2.
    + destruct (repeat_call (S k) _ _) as [r m']. simpl in *.
      split; [done|]. split; [|congruence].
      rewrite Hheld'. do 2 f_equal. lia.
Qed.

Lemma rlock_releases j : forall m depth,
  held self m = VPair token (VInt depth) ->
  Z.of_nat j <= depth ->
  outlives (m_world m) (RLock._expire self) = true ->
  let run := repeat_call j (RLock.release self) m in
  fst run = Ok tt
  /\ held self (snd run) = VPair token (VInt (depth - Z.of_nat j))
  /\ w_now (m_world (snd run)) = w_now (m_world m).
Proof.
  induction j as [|j IH]; intros m depth Hheld Hle Hlive run; subst run.
  - simpl. by rewrite Z.sub_0_r.
  - cbn [repeat_call]. munfold.
    rewrite (rlock_release_now m depth Hheld) by lia.
    destruct (rlock_wrote_held m (VPair token (VInt (depth - 1))) Hlive) as [H1 H2].
    destruct (IH (rlock_wrote self m (VPair token (VInt (depth - 1))))
                (depth - 1) H1) as (Hok & Hheld' & Hnow).
    + lia.
    + unfold outlives in *. by rewrite H2.
    + destruct (repeat_call j _ _) as [r m']. simpl in *.
      split; [done|]. split; [|congruence].
      rewrite Hheld'. do 2 f_equal. lia.
Qed.
End rlock_depth.

Lemma repeat_call_stops k c m e m1 :
  c m = (Raise e, m1) -> repeat_call (S k) c m = (Raise e, m1).
Proof. intros H. simpl. munfold. by rewrite H. Qed.

Lemma rlock_release_unheld self m owner :
  held self m = VPair owner (VInt 0) ->
  RLock.release self m
  = (Raise (AssertionError "cannot release un-acquired lock"),
     log ERollback (log (EGet (RLock._key self) RLock.default false) (log EBegin m))).
Proof.
  intros Hheld. rewrite (rlock_release_run self m owner 0 Hheld).
  by rewrite andb_false_r.
Qed.

(** X4. RLock counts its depth: on a lock that is free (depth 0) and whose
    rows do not expire at once, [k + 1] acquires by one object all return
    at the first turn of the loop; [j] releases after them all succeed and
    leave the depth [k + 1 - j] when [j <= k + 1]; with more releases the
    run ends in the AssertionError of release, with the depth left at 0. *)
Theorem rlock_counts_depth self fuel k j m owner :
  held self m = VPair owner (VInt 0) ->
  outlives (m_world m) (RLock._expire self) = true ->
  let me := VStr (RLock._value self) in
  let run :=
    (repeat_call (S k) (RLock.acquire (S fuel) self);;
     repeat_call j (RLock.release self)) m in
  ((j <= S k)%nat ->
   fst run = Ok tt
   /\ held self (snd run) = VPair me (VInt (Z.of_nat (S k) - Z.of_nat j)))
  /\ ((S k < j)%nat ->
      fst run = Raise (AssertionError "cannot release un-acquired lock")
      /\ held self (snd run) = VPair me (VInt 0)).
Proof.
  intros Hfree Hlive me run. subst run me. munfold.
  destruct (rlock_acquires self fuel k m owner 0 Hfree) as (Hok & Hheld & Hnow);
    [by rewrite orb_true_r|done|].
  destruct (repeat_call (S k) _ m) as [r m1]. cbn [fst snd] in *. subst r.
  rewrite Z.add_0_l in Hheld.
  assert (outlives (m_world m1) (RLock._expire self) = true) as Hlive1
    by (by rewrite (outlives_now _ _ _ Hnow)).
  split.
  - intros Hle.
    destruct (rlock_releases self j m1 _ Hheld) as (Hok & Hheld' & _); [lia|done|].
    by destruct (repeat_call j _ m1) as [r m2].
  - intros Hlt.
    replace j with (S k + S (j - S (S k)))%nat by lia.
    rewrite repeat_call_app. munfold.
    destruct (rlock_releases self (S k) m1 _ Hheld) as (Hok & Hheld' & _); [lia|done|].
    destruct (repeat_call (S k) _ m1) as [r m2]. cbn [fst snd] in *. subst r.
    rewrite Z.sub_diag in Hheld'.
    rewrite (repeat_call_stops _ _ _ _ _ (rlock_release_unheld self m2 _ Hheld')).
    split; [done|]. cbn [snd]. by rewrite <- Hheld'.
Qed.

Lemma rlock_counts_depth_witness :
  fst ((repeat_call 2 (RLock.acquire 1 user_123);;
        repeat_call 3 (RLock.release user_123)) boot)
  = Raise (AssertionError "cannot release un-acquired lock").
Proof.
  apply (rlock_counts_depth user_123 0 1 3 boot VNone); [reflexivity|reflexivity|lia].
Defined.

Lemma py_eq_str_ne s t : s <> t -> py_eq (VStr s) (VStr t) = false.
Proof.
  intros H. destruct (py_eq (VStr s) (VStr t)) eqn:E; [|done].
  apply py_eq_str in E. congruence.
Qed.

(** acquire by an object whose token is not the one in a row that does not
    expire and has a positive depth. *)
Lemma rlock_acquire_blocked other tok depth n : forall m e,
  w_store (m_world m) !! RLock._key other = Some e ->
  e_expire_time e = None ->
  e_value e = VPair (VStr tok) (VInt depth) ->
  RLock._value other <> tok ->
  0 < depth ->
  fst (RLock.acquire n other m) = Spin
  /\ w_store (m_world (snd (RLock.acquire n other m))) = w_store (m_world m).
Proof.
  induction n as [|n IH]; intros m e Hrow Hperm Hval Hne Hpos; [done|].
  assert (held other m = VPair (VStr tok) (VInt depth)) as Hheld.
  { unfold held. by rewrite (lookup_live_permanent m _ e Hrow Hperm). }
  cbn [RLock.acquire]. munfold.
  rewrite (rlock_attempt_run other m _ _ Hheld), (py_eq_str_ne _ _ Hne).
  assert ((depth =? 0) = false) as -> by lia. cbn [orb].
  rewrite sleep_ms.
  set (m1 := with_world _ _).
  by destruct (IH m1 e) as [Hspin Hstore].
Qed.

(** X5. RLock keeps other owners out: after an acquire by [self] on a free
    lock with no expiry, an object with the same key and another token
    spins in acquire for any number of turns and writes nothing, and its
    release fails the assertion; once [self] has released, the other
    object's acquire returns at once and the row holds its token at
    depth 1. *)
Theorem rlock_excludes_other_owner self other fuel n m owner :
  RLock._key other = RLock._key self ->
  RLock._value other <> RLock._value self ->
  RLock._expire self = None ->
  held self m = VPair owner (VInt 0) ->
  let inside := snd (RLock.acquire (S fuel) self m) in
  let freed := snd (RLock.release self inside) in
  fst (RLock.acquire n other inside) = Spin
  /\ w_store (m_world (snd (RLock.acquire n other inside))) = w_store (m_world inside)
  /\ fst (RLock.release other inside)
     = Raise (AssertionError "cannot release un-acquired lock")
  /\ fst (RLock.release self inside) = Ok tt
  /\ fst (RLock.acquire (S fuel) other freed) = Ok tt
  /\ row_value (snd (RLock.acquire (S fuel) other freed)) (RLock._key self)
     = Some (VPair (VStr (RLock._value other)) (VInt 1)).
Proof.
  intros Hkey Hne Hexp Hfree inside freed. subst freed inside.
  rewrite (rlock_acquire_now self fuel m owner 0 Hfree) by (by rewrite orb_true_r).
  cbn [snd]. rewrite Z.add_0_l.
  set (inside := rlock_wrote self m _).
  assert (outlives (m_world m) (RLock._expire self) = true) as Hlive
    by (by rewrite Hexp).
  destruct (rlock_wrote_held self m (VPair (VStr (RLock._value self)) (VInt 1)) Hlive)
    as [Hin _]. fold inside in Hin.
  assert (w_store (m_world inside) !! RLock._key other
          = Some (mk_entry (m_world m) (VPair (VStr (RLock._value self)) (VInt 1))
                    (RLock._expire self) (RLock._tag self))) as Hrow.
  { rewrite Hkey. subst inside. unfold rlock_wrote. simpl. by rewrite lookup_insert_eq. }
  destruct (rlock_acquire_blocked other (RLock._value self) 1 n inside _ Hrow)
    as [Hspin Hstore]; try done; [by rewrite Hexp|].
  split; [done|]. split; [done|].
  assert (held other inside = VPair (VStr (RLock._value self)) (VInt 1)) as Hin'.
  { unfold held in *. by rewrite Hkey. }
  split.
  { rewrite (rlock_release_run other inside _ _ Hin'), (py_eq_str_ne _ _ Hne). done. }
  rewrite (rlock_release_now self inside 1 Hin) by lia. cbn [fst snd].
  split; [done|].
  set (freed := rlock_wrote self inside _).
  assert (outlives (m_world inside) (RLock._expire self) = true) as Hlive'
    by (by rewrite Hexp).
  destruct (rlock_wrote_held self inside (VPair (VStr (RLock._value self)) (VInt (1 - 1)))
              Hlive') as [Hfreed _]. fold freed in Hfreed.
  assert (held other freed = VPair (VStr (RLock._value self)) (VInt 0)) as Hfreed'.
  { unfold held in *. by rewrite Hkey. }
  rewrite (rlock_acquire_now other fuel freed _ 0 Hfreed') by (by rewrite orb_true_r).
  split; [done|]. unfold row_value, rlock_wrote. simpl.
  by rewrite Hkey, lookup_insert_eq.
Qed.

Lemma rlock_excludes_other_owner_witness :
  fst (RLock.acquire 7 user_123_other (snd (RLock.acquire 1 user_123 boot))) = Spin.
Proof.
  apply (rlock_excludes_other_owner user_123 user_123_other 0 7 boot VNone);
    [reflexivity| |reflexivity|reflexivity].
  by vm_compute.
Defined.

(** ** BoundedSemaphore: capacity *)

Section semaphore_capacity.
Variable S : BoundedSemaphore.t.

#[local] Abbreviation ckey := (BoundedSemaphore._key S).
#[local] Abbreviation cexpire := (BoundedSemaphore._expire S).

Lemma sem_attempt_run m a :
  available S m = VInt a ->
  BoundedSemaphore.attempt S m
  = if 0 <? a then (Ok true, sem_wrote S m (VInt (a - 1)))
    else (Ok false,
          log ECommit (log (EGet ckey (BoundedSemaphore._value S) false) (log EBegin m))).
Proof.
  unfold available. intros Hread.
  unfold BoundedSemaphore.attempt, transact, cache_get. munfold.
  change (m_world (log EBegin m)) with (m_world m).
  rewrite Hread, py_gt_int.
  by destruct (0 <? a).
Qed.

Lemma sem_release_run bound m a :
  BoundedSemaphore._value S = VInt bound ->
  available S m = VInt a ->
  BoundedSemaphore.release S m
  = if a <? bound then (Ok tt, sem_wrote S m (VInt (a + 1)))
    else (Raise (AssertionError "cannot release un-acquired semaphore"),
          log ERollback
            (log (EGet ckey (BoundedSemaphore._value S) false) (log EBegin m))).
Proof.
  unfold available. intros Hbound Hread.
  unfold BoundedSemaphore.release, transact, cache_get. munfold.
  change (m_world (log EBegin m)) with (m_world m).
  rewrite Hread. rewrite Hbound at 1. rewrite py_gt_int.
  destruct (a <? bound); simpl; [done|].
  unfold log, with_world, with_store. simpl. by destruct m as [[] ?].
Qed.

Lemma sem_wrote_available m value :
  outlives (m_world m) cexpire = true ->
  available S (sem_wrote S m value) = value
  /\ w_now (m_world (sem_wrote S m value)) = w_now (m_world m).
Proof.
  intros Hlive. split; [|done].
  unfold available, lookup_live, sem_wrote. simpl.
  rewrite lookup_insert_eq, outlives_live, Hlive. done.
Qed.

Lemma sem_wrote_permanent m value :
  cexpire = None -> permanent (sem_wrote S m value) ckey = true.
Proof.
  intros Hexp. unfold permanent, sem_wrote. simpl.
  rewrite lookup_insert_eq. simpl. by rewrite Hexp.
Qed.

Lemma available_permanent m m' :
  permanent m ckey = true ->
  w_store (m_world m') = w_store (m_world m) ->
  available S m' = available S m.
Proof.
  unfold permanent, available, lookup_live, live. intros Hperm ->.
  destruct (w_store (m_world m) !! ckey) as [e|]; [|done].
  apply bool_decide_eq_true in Hperm. by rewrite Hperm.
Qed.

Lemma sem_acquire_now fuel m a :
  available S m = VInt a -> 0 < a ->
  BoundedSemaphore.acquire (Datatypes.S fuel) S m
  = (Ok tt, sem_wrote S m (VInt (a - 1))).
Proof.
  intros Hread Hpos. cbn [BoundedSemaphore.acquire]. munfold.
  rewrite (sem_attempt_run m a Hread).
  by assert ((0 <? a) = true) as -> by lia.
Qed.

Lemma sem_acquires fuel k : forall m a,
  available S m = VInt a ->
  Z.of_nat k <= a ->
  outlives (m_world m) cexpire = true ->
  let run := repeat_call k (BoundedSemaphore.acquire (Datatypes.S fuel) S) m in
  fst run = Ok tt
  /\ available S (snd run) = VInt (a - Z.of_nat k)
  /\ w_now (m_world (snd run)) = w_now (m_world m)
  /\ (cexpire = None -> permanent m ckey = true -> permanent (snd run) ckey = true).
Proof.
  induction k as [|k IH]; intros m a Hread Hle Hlive run; subst run.
  - simpl. by rewrite Z.sub_0_r.
  - cbn [repeat_call]. munfold.
    rewrite (sem_acquire_now fuel m a Hread) by lia.
    destruct (sem_wrote_available m (VInt (a - 1)) Hlive) as [H1 H2].
    destruct (IH (sem_wrote S m (VInt (a - 1))) (a - 1) H1)
      as (Hok & Hread' & Hnow & Hperm).
    + lia.
    + by rewrite (outlives_now _ _ _ H2).
    + destruct (repeat_call k _ _) as [r m']. simpl in *.
      split; [done|]. split; [|split; [congruence|]].
      * rewrite Hread'. f_equal. lia.
      * intros Hexp _. apply Hperm; [done|]. by apply sem_wrote_permanent.
Qed.

(** acquire when the counter is used up and cannot come back by expiry. *)
Lemma sem_acquire_blocked a n : forall m,
  available S m = VInt a -> a <= 0 ->
  permanent m ckey = true ->
  fst (BoundedSemaphore.acquire n S m) = Spin
  /\ w_store (m_world (snd (BoundedSemaphore.acquire n S m))) = w_store (m_world m).
Proof.
  induction n as [|n IH]; intros m Hread Hle Hperm; [done|].
  cbn [BoundedSemaphore.acquire]. munfold.
  rewrite (sem_attempt_run m a Hread).
  assert ((0 <? a) = false) as -> by lia.
  rewrite sleep_ms.
  set (m1 := with_world _ _).
  assert (w_store (m_world m1) = w_store (m_world m)) as Hstore by done.
  destruct (IH m1) as [Hspin Hstore'].
  - by rewrite (available_permanent m m1 Hperm Hstore).
  - done.
  - unfold permanent in *. by rewrite Hstore.
  - split; [done|]. by rewrite Hstore'.
Qed.
End semaphore_capacity.

(** X6. BoundedSemaphore capacity: when a transaction reads [a] free
    places, the semaphore has no expiry and the row of its key, if any,
    does not expire, then [a] acquires in a row each return at the first
    turn of the loop and leave 0 places; the next acquire spins for any
    number of turns without changing the store; after one release an
    acquire returns at once again. *)
Theorem semaphore_capacity S bound fuel a n m :
  BoundedSemaphore._value S = VInt bound ->
  BoundedSemaphore._expire S = None ->
  permanent m (BoundedSemaphore._key S) = true ->
  available S m = VInt (Z.of_nat a) ->
  let taken := repeat_call a (BoundedSemaphore.acquire (Datatypes.S fuel) S) m in
  let full := snd taken in
  fst taken = Ok tt
  /\ available S full = VInt 0
  /\ fst (BoundedSemaphore.acquire n S full) = Spin
  /\ w_store (m_world (snd (BoundedSemaphore.acquire n S full))) = w_store (m_world full)
  /\ (0 < bound ->
      fst ((BoundedSemaphore.release S;;
            BoundedSemaphore.acquire (Datatypes.S fuel) S) full) = Ok tt).
Proof.
  intros Hbound Hexp Hperm Hread taken full. subst full taken.
  assert (forall w, outlives w (BoundedSemaphore._expire S) = true) as Hlive
    by (intros w; by rewrite Hexp).
  destruct (sem_acquires S fuel a m _ Hread) as (Hok & Hfull & _ & Hperm');
    [lia|done|].
  destruct (repeat_call a _ m) as [r full]. cbn [fst snd] in *.
  rewrite Z.sub_diag in Hfull. specialize (Hperm' Hexp Hperm).
  split; [done|]. split; [done|].
  destruct (sem_acquire_blocked S 0 n full Hfull) as [Hspin Hstore]; [lia|done|].
  split; [done|]. split; [done|].
  intros Hpos. munfold.
  rewrite (sem_release_run S bound full 0 Hbound Hfull).
  assert ((0 <? bound) = true) as -> by lia.
  destruct (sem_wrote_available S full (VInt (0 + 1)) (Hlive _)) as [Hone _].
  by rewrite (sem_acquire_now S fuel _ (0 + 1) Hone).
Qed.

Lemma semaphore_capacity_witness :
  fst (BoundedSemaphore.acquire 9 max_connections
         (snd (repeat_call 2 (BoundedSemaphore.acquire 1 max_connections) boot)))
  = Spin.
Proof.
  apply (semaphore_capacity max_connections 2 0 2 9 boot); reflexivity.
Defined.

(** X7. BoundedSemaphore round trip: when a transaction reads [a] free
    places with [0 < a], at most the bound, and rows do not expire at
    once, acquire followed by release succeeds and leaves [a] places
    again; when it reads all places free, release alone fails its
    assertion and leaves the store as it was. *)
Theorem semaphore_acquire_release_round_trip S bound fuel a m :
  BoundedSemaphore._value S = VInt bound ->
  available S m = VInt a ->
  0 < a <= bound ->
  outlives (m_world m) (BoundedSemaphore._expire S) = true ->
  let run := (BoundedSemaphore.acquire (Datatypes.S fuel) S;;
              BoundedSemaphore.release S) m in
  fst run = Ok tt
  /\ available S (snd run) = VInt a
  /\ (a = bound ->
      fst (BoundedSemaphore.release S m)
      = Raise (AssertionError "cannot release un-acquired semaphore")
      /\ w_store (m_world (snd (BoundedSemaphore.release S m))) = w_store (m_world m)).
Proof.
  intros Hbound Hread Ha Hlive run. subst run. munfold.
  rewrite (sem_acquire_now S fuel m a Hread) by lia.
  destruct (sem_wrote_available S m (VInt (a - 1)) Hlive) as [H1 H2].
  rewrite (sem_release_run S bound _ (a - 1) Hbound H1).
  assert ((a - 1 <? bound) = true) as -> by lia. cbn [fst snd].
  split; [done|]. split.
  - destruct (sem_wrote_available S (sem_wrote S m (VInt (a - 1))) (VInt (a - 1 + 1)))
      as [H3 _]; [by rewrite (outlives_now _ _ _ H2)|].
    rewrite H3. f_equal. lia.
  - intros ->. rewrite (sem_release_run S bound m bound Hbound Hread).
    by rewrite Z.ltb_irrefl.
Qed.

Lemma semaphore_acquire_release_round_trip_witness :
  available max_connections
    (snd ((BoundedSemaphore.acquire 1 max_connections;;
           BoundedSemaphore.release max_connections) boot))
  = VInt 2.
Proof.
  apply (semaphore_acquire_release_round_trip max_connections 2 0 2 boot);
    [reflexivity|reflexivity|lia|reflexivity].
Defined.

(** ** barrier *)

Lemma invocations_emitted m m' evs :
  emitted m m' evs ->
  invocations m' = (invocations m + length (List.filter is_invoke evs))%nat.
Proof.
  unfold emitted, invocations. intros ->. by rewrite List.filter_app, length_app.
Qed.

Lemma turns_no_invoke n turn :
  List.filter is_invoke turn = [] -> List.filter is_invoke (turns n turn) = [].
Proof.
  intros H. unfold turns. induction n as [|n IH]; [done|].
  simpl. by rewrite List.filter_app, H, IH.
Qed.

(** X8. barrier releases the lock on every way out of the function: with a
    Lock whose key is free, the wrapper takes the lock at the first turn,
    calls the function once while the row of the key is in the store, and,
    whether the function returns or raises, hands on exactly the function's
    outcome after deleting the row. *)
Theorem barrier_releases_on_every_exit (lock : Lock.t) func args fuel m :
  stored m (Lock._key lock) = None ->
  let inside := snd (Lock.__enter__ (S fuel) lock m) in
  let call := f_call func args (m_world inside) in
  let out := barrier.wrapper (S fuel) lock func args m in
  fst call <> Spin ->
  w_store (m_world inside) !! Lock._key lock
  = Some (mk_entry (m_world m) VNone (Lock._expire lock) (Lock._tag lock))
  /\ fst out = fst call
  /\ w_store (m_world (snd out)) = delete (Lock._key lock) (w_store (snd call))
  /\ emitted m (snd out)
       [EAdd (Lock._key lock) VNone (Lock._expire lock) (Lock._tag lock) true;
        EInvoke args;
        EDelete (Lock._key lock) true].
Proof.
  intros Hfree inside call out. subst out call inside.
  unfold barrier.wrapper, lock_enter, lock_exit, Lock_factory,
    Lock.__enter__, Lock.__exit__.
  rewrite (lock_acquire_free lock fuel m Hfree). cbn [fst snd].
  set (inside := log _ _).
  unfold invoke, liftU. change (m_world (log (EInvoke args) inside)) with (m_world inside).
  intros Hends. split.
  { subst inside. simpl. by rewrite lookup_insert_eq. }
  destruct (f_call func args (m_world inside)) as [r w2]. cbn [fst snd] in *.
  unfold Lock.release, cache_delete. munfold.
  destruct r as [v|e|]; [| |done].
  - split; [done|]. split; [done|]. unfold emitted. simpl. by rewrite <- !app_assoc.
  - split; [done|]. split; [done|]. unfold emitted. simpl. by rewrite <- !app_assoc.
Qed.

Lemma barrier_releases_on_every_exit_witness :
  fst (barrier.wrapper 1 report failing_work [] boot) = Raise ValueError.
Proof.
  apply (barrier_releases_on_every_exit report failing_work [] 0 boot);
    [reflexivity|discriminate].
Defined.

(** X9. barrier keeps the function waiting: while the row of the Lock's
    key is in the store and does not expire, the wrapper spins for any
    number of turns, never calls the function and leaves the store as it
    is. *)
Theorem barrier_waits_while_held (lock : Lock.t) func args fuel m e :
  w_store (m_world m) !! Lock._key lock = Some e ->
  e_expire_time e = None ->
  let out := barrier.wrapper fuel lock func args m in
  fst out = Spin
  /\ invocations (snd out) = invocations m
  /\ w_store (m_world (snd out)) = w_store (m_world m).
Proof.
  intros Hrow Hperm out. subst out.
  unfold barrier.wrapper, lock_enter, Lock_factory, Lock.__enter__.
  destruct (lock_acquire_held lock fuel m e Hrow Hperm) as (Hspin & Hstore & Htrace).
  destruct (Lock.acquire fuel lock m) as [r m1]. cbn [fst snd] in *. subst r.
  cbv beta iota. cbn [fst snd].
  split; [done|]. split; [|done].
  rewrite (invocations_emitted _ _ _ Htrace), turns_no_invoke; [simpl; lia|done].
Qed.

Lemma barrier_waits_while_held_witness :
  fst (barrier.wrapper 5 report clock_reading []
         (snd (Lock.acquire 1 report boot))) = Spin.
Proof.
  eapply (barrier_waits_while_held report clock_reading [] 5
            (snd (Lock.acquire 1 report boot))); reflexivity.
Defined.

(** ** throttle: division by zero *)

Lemma py_arith_float_r fz ff a y v :
  py_arith fz ff a (VFloat y) = Ok v -> exists f, v = VFloat f.
Proof.
  unfold py_arith. destruct a as [|x|x|s|p q]; simpl; try discriminate.
  - destruct (int_to_float x); simpl; [|discriminate..].
    intros [= <-]. by eexists.
  - intros [= <-]. by eexists.
Qed.

Lemma py_truediv_zero a b :
  convertible a -> is_zero b = true -> py_truediv a b = Raise ZeroDivisionError.
Proof.
  unfold convertible, py_truediv.
  destruct a as [|x|x|s|p q]; simpl; try discriminate; intros Ha;
    destruct b as [|y|y|t|u v]; simpl; try discriminate; intros Hb.
  - apply Z.eqb_eq in Hb. subst y. done.
  - by rewrite Ha, Hb.
  - apply Z.eqb_eq in Hb. subst y. by vm_compute.
  - by rewrite Hb.
Qed.

(** X10. throttle with [seconds] equal to zero cannot decorate: when
    [seconds] is a zero and [count] a number that converts to a float,
    [decorator] raises ZeroDivisionError at [count / float(seconds)],
    before the clock is read and before anything is stored. *)
Theorem throttle_zero_seconds_fails th func m :
  is_zero (throttle.seconds th) = true ->
  convertible (throttle.count th) ->
  throttle.decorator th func m = (Raise ZeroDivisionError, m).
Proof.
  intros Hzero Hcount. unfold throttle.decorator. munfold.
  assert (exists f, py_float (throttle.seconds th) = Ok (VFloat f)
                    /\ is_zero (VFloat f) = true) as (f & -> & Hf).
  { destruct (throttle.seconds th) as [|z|z|s|p q]; simpl in *; try discriminate.
    - apply Z.eqb_eq in Hzero. subst z. exists (Z2F 0). split; by vm_compute.
    - by exists z. }
  by rewrite (py_truediv_zero _ _ Hcount Hf).
Qed.

Lemma throttle_zero_seconds_fails_witness :
  throttle.decorator zero_seconds clock_reading boot = (Raise ZeroDivisionError, boot).
Proof.
  apply (throttle_zero_seconds_fails zero_seconds clock_reading boot);
    [reflexivity|by vm_compute].
Defined.

(** X11. throttle with a zero rate fails instead of waiting: when a turn
    of the loop finds less than one token and no more than [count], the
    delay [(1 - tally) / rate] divides by zero: the call raises
    ZeroDivisionError inside the transaction, which is rolled back; the
    store is as it was and the function is not called. *)
Theorem throttle_zero_rate_fails th cl func args fuel m last tally now tally' w r :
  stored m (throttle.key cl) = Some (VPair last tally) ->
  throttle.time_func th (m_world m) = (Ok now, w) ->
  accrue cl last tally now = Ok tally' ->
  throttle.rate cl = VFloat r ->
  PrimFloat.eqb r 0 = true ->
  py_gt tally' (throttle.count th) = Ok false ->
  py_ge tally' (VInt 1) = Ok false ->
  let call := throttle.wrapper (S fuel) th cl func args m in
  fst call = Raise ZeroDivisionError
  /\ w_store (m_world (snd call)) = w_store (m_world m)
  /\ invocations (snd call) = invocations m.
Proof.
  intros Hstored Htime Haccrue Hrate Hzero Hgt Hge call. subst call.
  assert (exists f, tally' = VFloat f) as [f ->].
  { unfold accrue in Haccrue. rewrite Hrate in Haccrue.
    destruct (py_sub now last) as [elapsed| |]; [|done|done]. simpl in Haccrue.
    destruct (py_mul elapsed (VFloat r)) as [accrued| |] eqn:Emul; [|done|done].
    apply py_arith_float_r in Emul as [a ->]. simpl in Haccrue.
    by apply py_arith_float_r in Haccrue. }
  assert (py_sub (VInt 1) (VFloat f) = Ok (VFloat (Z2F 1 - f))) as Hshort.
  { unfold py_sub, py_arith. cbn [is_number andb as_float].
    by rewrite int_to_float_small by (by vm_compute). }
  assert (py_truediv (VFloat (Z2F 1 - f)) (throttle.rate cl) = Raise ZeroDivisionError)
    as Hdelay by (rewrite Hrate; by apply py_truediv_zero).
  unfold throttle.wrapper. cbn [throttle.wait].
  unfold transact, throttle.bucket_step, cache_get.
  pose proof Haccrue as Ha. unfold accrue in Ha. munfold.
  change (m_world (log EBegin m)) with (m_world m).
  rewrite (stored_read _ _ _ Hstored). cbn [unpack2].
  change (m_world (log (EGet (throttle.key cl) VNone true) (log EBegin m)))
    with (m_world m).
  rewrite Htime.
  destruct (py_sub now last) as [elapsed| |]; [|done|done].
  destruct (py_mul elapsed (throttle.rate cl)) as [accrued| |]; [|done|done].
  rewrite Ha, Hgt, Hge, Hshort, Hdelay. simpl.
  split; [done|]. split; [done|].
  unfold invocations. simpl. rewrite !List.filter_app, !length_app. simpl. lia.
Qed.

Lemma throttle_zero_rate_fails_witness :
  fst (throttle.wrapper 1 no_calls no_calls_closure clock_reading []
         (decorated no_calls))
  = Raise ZeroDivisionError.
Proof.
  apply (throttle_zero_rate_fails no_calls no_calls_closure clock_reading [] 0
           (decorated no_calls) (VFloat 0) (VInt 0) (VFloat 0) (VFloat 0)
           (m_world (decorated no_calls)) 0%float);
    reflexivity.
Defined.

(** ** Averager: failing adds and the window after pop *)

(** X12. Averager.add is all or nothing: when the stored pair is a float
    total and an integer count and [value] does not convert to a float
    (it is no number: TypeError; it is an integer too large:
    OverflowError), add raises that error at [total += value], the store
    is as it was and get returns what it returned before. *)
Theorem averager_add_rejects_bad_value self value e m total count :
  from_option e_value Averager.default
    (lookup_live (m_world m) (Averager._key self))
  = VPair (VFloat total) (VInt count) ->
  as_float value = Raise e ->
  let out := Averager.add self value m in
  fst out = Raise e
  /\ w_store (m_world (snd out)) = w_store (m_world m)
  /\ fst (Averager.get self (snd out)) = fst (Averager.get self m).
Proof.
  intros Hread Hbad out. subst out.
  assert (py_add (VFloat total) value = Raise e) as Hadd.
  { unfold py_add, py_arith.
    destruct value as [|x|x|s|p q]; cbn [as_float is_number andb] in *.
    - congruence.
    - by rewrite Hbad.
    - discriminate.
    - congruence.
    - congruence. }
  unfold Averager.add, transact, cache_get. munfold.
  change (m_world (log EBegin m)) with (m_world m).
  rewrite Hread. cbn [unpack2]. rewrite Hadd. cbn [fst snd].
  split; [done|]. split; [done|].
  unfold Averager.get, cache_get, lookup_live. munfold. simpl.
  destruct (unpack2 _) as [[t c]| |]; simpl; [|done|done].
  by destruct (Averager.average t c).
Qed.

Lemma averager_add_rejects_bad_value_witness :
  fst (Averager.add latency (VStr "fast") boot) = Raise TypeError.
Proof.
  apply (averager_add_rejects_bad_value latency (VStr "fast") TypeError boot 0%float 0);
    reflexivity.
Defined.

(** X13. Averager.pop starts a new window: whatever was stored before, for
    an Averager without expiry the adds made after a pop, at any times,
    are averaged on their own: get returns 0.0 for none and otherwise
    their binary64 sum in call order divided by their number. *)
Theorem averager_pop_starts_new_window self calls t_end m :
  Averager._expire self = None ->
  Forall convertible (snd <$> calls) ->
  Z.of_nat (length calls) < float_overflow_bound ->
  mean_after_adds self calls t_end (snd (Averager.pop self m)).
Proof.
  intros Hexp Hv Hn. set (m0 := snd (Averager.pop self m)).
  assert (w_store (m_world m0) !! Averager._key self = None) as Hfresh.
  { subst m0. rewrite pop_machine. simpl. apply lookup_delete_eq. }
  assert (Ha : acc self m0 0%float 0) by (unfold acc; by rewrite Hfresh).
  assert (Hk : kept self calls t_end m0 = true).
  { eapply kept_no_expire; [done|done|exact Ha|]. intros e. by rewrite Hfresh. }
  destruct (adds_acc self calls m0 t_end _ _ Hv Hk Ha) as [Hacc Hret].
  unfold mean_after_adds.
  rewrite (get_run self _ _ _ (acc_read self _ _ _ _ Hret Hacc)).
  destruct calls as [|c rest]; [done|].
  rewrite average_pos by (simpl length in *; lia).
  rewrite running_mean_fold by done.
  rewrite length_fmap. by rewrite Z.add_0_l.
Qed.

Lemma averager_pop_starts_new_window_witness :
  fst (Averager.get latency
         (at_time 50
            (adds latency [(40, VInt 3); (45, VInt 4)]%float
               (snd (Averager.pop latency
                       (adds latency [(10, VFloat 0.080); (20, VFloat 0.120)]%float
                          boot))))))
  = Ok (VFloat 3.5).
Proof.
  etrans.
  - apply (averager_pop_starts_new_window latency [(40, VInt 3); (45, VInt 4)]%float);
      [reflexivity | repeat constructor; by vm_compute | by vm_compute].
  - by vm_compute.
Defined.

(** ** barrier over an RLock *)

Lemma rlock_release_invocations self m :
  invocations (snd (RLock.release self m)) = invocations m.
Proof.
  unfold RLock.release, transact, cache_get, cache_set. munfold.
  repeat case_match; simplify_eq/=;
    unfold invocations, log, with_world; simpl;
    rewrite ?List.filter_app, ?length_app; simpl; lia.
Qed.

(** X14. barrier over an RLock lets every thread in: the lock object is
    built once, by the thread that decorates, so its token is that
    thread's; whichever thread calls the wrapper while the lock is held
    through this object at any depth, the wrapper enters at the first turn,
    raising the depth by one, and calls the function. *)
Theorem barrier_rlock_admits_every_thread name expire tag func args fuel
    m0 lock m0' m depth pid tid :
  barrier.decorator (L:=RLock.t) name expire tag func m0 = (Ok lock, m0') ->
  held lock m = VPair (VStr (RLock._value lock)) (VInt depth) ->
  let caller := as_thread pid tid m in
  let enter := RLock.__enter__ (S fuel) lock caller in
  let out := barrier.wrapper (S fuel) lock func args caller in
  RLock._value lock = RLock.token (w_pid (m_world m0)) (w_tid (m_world m0))
  /\ fst enter = Ok tt
  /\ row_value (snd enter) (RLock._key lock)
     = Some (VPair (VStr (RLock._value lock)) (VInt (depth + 1)))
  /\ invocations (snd out) = S (invocations m).
Proof.
  intros Hdec Hheld caller enter out. subst out enter.
  split.
  { unfold barrier.decorator, lock_new, RLock_factory, RLock.__init__ in Hdec.
    by injection Hdec as <- _. }
  assert (held lock caller = VPair (VStr (RLock._value lock)) (VInt depth)) as Hheld'
    by done.
  assert (py_eq (VStr (RLock._value lock)) (VStr (RLock._value lock)) = true) as Hme
    by (by apply py_eq_str).
  unfold barrier.wrapper, lock_enter, lock_exit, RLock_factory,
    RLock.__enter__, RLock.__exit__.
  rewrite (rlock_acquire_now lock fuel caller _ depth Hheld') by (by rewrite Hme).
  cbn [fst snd]. split; [done|]. split.
  { unfold row_value, rlock_wrote. simpl. by rewrite lookup_insert_eq. }
  set (m1 := rlock_wrote lock caller _).
  assert (invocations m1 = invocations m) as Hm1.
  { subst m1. unfold rlock_wrote.
    rewrite !invocations_log, invocations_with_world, !invocations_log. simpl.
    unfold caller, as_thread. rewrite invocations_with_world. lia. }
  unfold invoke, liftU. change (m_world (log (EInvoke args) m1)) with (m_world m1).
  destruct (f_call func args (m_world m1)) as [r w2].
  set (m2 := with_world w2 (log (EInvoke args) m1)).
  assert (invocations m2 = S (invocations m)) as Hm2.
  { subst m2. rewrite invocations_with_world, invocations_log, Hm1. simpl. lia. }
  pose proof (rlock_release_invocations lock m2) as Hrel.
  destruct r as [v|e|]; [| |done];
    destruct (RLock.release lock m2) as [[[]|e'|] m3]; simpl in *; congruence.
Qed.

Lemma barrier_rlock_admits_every_thread_witness :
  invocations
    (snd (barrier.wrapper 1 barrier_rlock clock_reading []
            (as_thread 4242 2 (snd (RLock.acquire 1 barrier_rlock boot)))))
  = 1%nat.
Proof.
  apply (barrier_rlock_admits_every_thread None None None clock_reading [] 0
           boot barrier_rlock boot (snd (RLock.acquire 1 barrier_rlock boot)) 1 4242 2);
    reflexivity.
Defined.

(** ** RLock tokens *)

Lemma pretty_N_go_no_dash x : forall s,
  no_dash s = true -> no_dash (pretty_N_go x s) = true.
Proof.
  induction (N.lt_wf_0 x) as [x _ IH]; intros s Hs.
  assert (x = 0 \/ 0 < x)%N as [->|Hpos] by lia.
  - by rewrite pretty_N_go_0.
  - rewrite pretty_N_go_step by done. apply IH.
    { by apply N.div_lt. }
    simpl. rewrite Hs. unfold pretty_N_char. by repeat case_match.
Qed.

Lemma pretty_Z_no_dash z : 0 <= z -> no_dash (pretty z) = true.
Proof.
  intros Hz. destruct z as [|p|p]; [done| |lia].
  unfold pretty, pretty_Z, pretty, pretty_positive, pretty, pretty_N.
  case_decide; [done|]. by apply pretty_N_go_no_dash.
Qed.

Lemma split_at_dash a : forall c b d,
  no_dash a = true -> no_dash c = true ->
  a +:+ "-" +:+ b = c +:+ "-" +:+ d -> a = c /\ b = d.
Proof.
  induction a as [|x a IH]; intros [|y c] b d Ha Hc H;
    cbv [String.append] in H; fold String.append in H; simpl in Ha, Hc.
  - by injection H as <-.
  - injection H as <- _. by rewrite bool_decide_eq_true_2 in Hc.
  - injection H as -> _. by rewrite bool_decide_eq_true_2 in Ha.
  - injection H as -> H. apply andb_prop in Ha as [_ Ha]. apply andb_prop in Hc as [_ Hc].
    by destruct (IH c b d Ha Hc H) as [-> ->].
Qed.

(** X15. RLock tokens tell threads apart: the tokens that [__init__] makes
    for two (process id, thread id) pairs with process ids that are not
    negative are equal only if the pairs are equal, so RLock objects built
    by different threads, or in different processes, never pass for each
    other's owner. *)
Theorem rlock_token_injective key expire tag key' expire' tag' m m' :
  0 <= w_pid (m_world m) ->
  0 <= w_pid (m_world m') ->
  (w_pid (m_world m), w_tid (m_world m)) <> (w_pid (m_world m'), w_tid (m_world m')) ->
  forall self other,
    fst (RLock.__init__ key expire tag m) = Ok self ->
    fst (RLock.__init__ key' expire' tag' m') = Ok other ->
    RLock._value self <> RLock._value other.
Proof.
  intros Hpid Hpid' Hne self other [= <-] [= <-]. simpl.
  unfold RLock.token. intros Heq.
  apply split_at_dash in Heq as [H1 H2]; [|by apply pretty_Z_no_dash..].
  apply (inj pretty) in H1. apply (inj pretty) in H2. congruence.
Qed.

Lemma rlock_token_injective_witness :
  RLock._value user_123 <> RLock._value user_123_other.
Proof.
  apply (rlock_token_injective "user-123" None None "user-123" None None
           boot (as_thread 4242 2 boot));
    [by vm_compute|by vm_compute|by vm_compute|reflexivity|reflexivity].
Defined.

(** ** barrier over a BoundedSemaphore *)

Lemma sem_attempt_invocations S m :
  invocations (snd (BoundedSemaphore.attempt S m)) = invocations m.
Proof.
  unfold BoundedSemaphore.attempt, transact, cache_get, cache_set. munfold.
  repeat case_match; simplify_eq/=;
    unfold invocations, log, with_world; simpl;
    rewrite ?List.filter_app, ?length_app; simpl; lia.
Qed.

Lemma sem_acquire_invocations S n : forall m,
  invocations (snd (BoundedSemaphore.acquire n S m)) = invocations m.
Proof.
  induction n as [|n IH]; intros m; [done|].
  cbn [BoundedSemaphore.acquire]. munfold.
  pose proof (sem_attempt_invocations S m) as Ha.
  destruct (BoundedSemaphore.attempt S m) as [[[]|e|] m1]; cbn [fst snd] in *;
    try done.
  rewrite sleep_ms, IH.
  by rewrite invocations_with_world, invocations_log, Nat.add_0_r.
Qed.

(** X16. barrier over a BoundedSemaphore admits one call at a time: the
    factory is called without a value, so the semaphore has one place; the
    wrapper's entry on a free key takes it, leaving 0 in the row, and while
    a row that does not expire holds 0 the wrapper spins for any number of
    turns, does not call the function and leaves the store as it is. *)
Theorem barrier_semaphore_is_binary name expire tag func args fuel n m0 S m0' m e :
  barrier.decorator (L:=BoundedSemaphore.t) name expire tag func m0 = (Ok S, m0') ->
  w_store (m_world m) !! BoundedSemaphore._key S = Some e ->
  e_expire_time e = None ->
  e_value e = VInt 0 ->
  let out := barrier.wrapper n S func args m in
  BoundedSemaphore._value S = VInt 1
  /\ (forall free,
        w_store (m_world free) !! BoundedSemaphore._key S = None ->
        let enter := BoundedSemaphore.__enter__ (Datatypes.S fuel) S free in
        fst enter = Ok tt
        /\ row_value (snd enter) (BoundedSemaphore._key S) = Some (VInt 0))
  /\ fst out = Spin
  /\ invocations (snd out) = invocations m
  /\ w_store (m_world (snd out)) = w_store (m_world m).
Proof.
  intros Hdec Hrow Hperm Hval out. subst out.
  assert (BoundedSemaphore._value S = VInt 1) as Hbound.
  { unfold barrier.decorator, lock_new, BoundedSemaphore_factory,
      BoundedSemaphore.__init__ in Hdec. munfold. by injection Hdec as <- _. }
  split; [done|]. split.
  { intros free Hfree enter. subst enter. unfold BoundedSemaphore.__enter__.
    assert (available S free = VInt 1) as Hread.
    { unfold available, lookup_live. by rewrite Hfree. }
    rewrite (sem_acquire_now S fuel free 1 Hread) by lia.
    split; [done|]. unfold row_value, sem_wrote. simpl. by rewrite lookup_insert_eq. }
  assert (available S m = VInt 0) as Hread.
  { unfold available. by rewrite (lookup_live_permanent m _ e Hrow Hperm). }
  assert (permanent m (BoundedSemaphore._key S) = true) as Hp.
  { unfold permanent. rewrite Hrow. by apply bool_decide_eq_true. }
  destruct (sem_acquire_blocked S 0 n m Hread) as [Hspin Hstore]; [lia|done|].
  pose proof (sem_acquire_invocations S n m) as Hinv.
  unfold barrier.wrapper, lock_enter, BoundedSemaphore_factory,
    BoundedSemaphore.__enter__.
  destruct (BoundedSemaphore.acquire n S m) as [r m1]. cbn [fst snd] in *. subst r.
  done.
Qed.

Lemma barrier_semaphore_is_binary_witness :
  fst (barrier.wrapper 6 barrier_semaphore clock_reading []
         (snd (BoundedSemaphore.acquire 1 barrier_semaphore boot)))
  = Spin.
Proof.
  eapply (barrier_semaphore_is_binary None None None clock_reading [] 0 6
            boot barrier_semaphore boot
            (snd (BoundedSemaphore.acquire 1 barrier_semaphore boot)));
    reflexivity.
Defined.
